(** * SECS: spelling and grammar correction pipeline

    A shallow embedding of [user_preprocess.py] (tokenizer, lemmatizer
    driver and the display-grammar state machine) and of the suggestion
    ranking and highlighting code of [app.py].

    Python strings are Rocq strings whose characters are the code points
    0..255 (Latin-1); dictionaries are finite maps, sets are finite sets,
    lists are lists.  A Python exception is the [None] of an option. *)

From Stdlib Require Import Ascii NArith.
From Equations Require Import Equations.
From stdpp Require Import base option list strings gmap sorting.

(** ** Characters and the classes used by the regular expression *)

Module Chars.

Definition code (c : ascii) : N := N_of_ascii c.

Definition in_range (lo hi : N) (c : ascii) : bool :=
  ((lo <=? code c) && (code c <=? hi))%N.

(** The class [[a-z]]. *)
Definition is_az (c : ascii) : bool := in_range 97 122 c.

(** The class [\w] of Python's [re] on [str] patterns: alphanumeric
    code points and the underscore. *)
Definition is_word (c : ascii) : bool :=
  in_range 48 57 c || in_range 65 90 c || (code c =? 95)%N || in_range 97 122 c
  || (code c =? 170)%N || in_range 178 179 c || (code c =? 181)%N
  || in_range 185 186 c || in_range 188 190 c
  || in_range 192 214 c || in_range 216 246 c || in_range 248 255 c.

(** [str.isalpha] on one character. *)
Definition is_alpha (c : ascii) : bool :=
  in_range 65 90 c || in_range 97 122 c
  || (code c =? 170)%N || (code c =? 181)%N || (code c =? 186)%N
  || in_range 192 214 c || in_range 216 246 c || in_range 248 255 c.

(** [str.lower] on one character. *)
Definition char_lower (c : ascii) : ascii :=
  if in_range 65 90 c || in_range 192 214 c || in_range 216 222 c
  then ascii_of_N (code c + 32)
  else c.

(** [text.lower()] *)
Fixpoint lower (s : string) : string :=
  match s with
  | EmptyString => EmptyString
  | String c s' => String (char_lower c) (lower s')
  end.

Fixpoint string_forallb (p : ascii -> bool) (s : string) : bool :=
  match s with
  | EmptyString => true
  | String c s' => p c && string_forallb p s'
  end.

Definition first_char (s : string) : option ascii :=
  match s with
  | EmptyString => None
  | String c _ => Some c
  end.

Fixpoint last_char (s : string) : option ascii :=
  match s with
  | EmptyString => None
  | String c EmptyString => Some c
  | String _ s' => last_char s'
  end.

End Chars.

(** ** The tokenizer: [re.findall(r'\b[a-z]+\b', text)] *)

Module Tokenizer.
Import Chars.

(** [\b] between the character before a position ([None] at the start
    of the text) and the character after it ([None] at the end). *)
Definition word_boundary (before after : option ascii) : bool :=
  xorb (from_option is_word false before) (from_option is_word false after).

(** Whether the character in front of the cursor is a word character. *)
Definition word_before (before : option ascii) : bool :=
  from_option is_word false before.

(** [[a-z]+] at the start of [s]: every split (matched, rest), in the
    order in which the greedy backtracking matcher tries them, the
    longest first. *)
Fixpoint az_plus (s : string) : list (string * string) :=
  match s with
  | EmptyString => []
  | String c s' =>
      if is_az c
      then map (fun mr => (String c (fst mr), snd mr)) (az_plus s')
             ++ [(String c EmptyString, s')]
      else []
  end.

(** [\b[a-z]+\b] anchored at the start of [s], [before] being the
    character in front of it: the first alternative of [[a-z]+] that is
    followed by a word boundary. *)
Definition match_here (before : option ascii) (s : string)
  : option (string * string) :=
  if word_boundary before (first_char s)
  then List.find (fun mr => word_boundary (last_char (fst mr)) (first_char (snd mr)))
                 (az_plus s)
  else None.

Lemma az_plus_shorter s m r :
  In (m, r) (az_plus s) -> String.length r < String.length s.
Proof.
  revert m r. induction s as [|c s IH]; intros m r; simpl; [tauto|].
  destruct (is_az c); [|simpl; tauto].
  rewrite in_app_iff, in_map_iff. intros [[[m' r'] [Heq Hin]]|[Heq|[]]].
  - inversion Heq; subst. apply IH in Hin. simpl in *. lia.
  - inversion Heq; subst. lia.
Qed.

Lemma match_here_shorter before s m r :
  match_here before s = Some (m, r) -> String.length r < String.length s.
Proof.
  unfold match_here. destruct (word_boundary _ _); [|discriminate].
  intros H. apply find_some in H as [H _]. eauto using az_plus_shorter.
Qed.

Definition inspect {A} (a : A) : {b : A | a = b} := exist _ a eq_refl.

(** The scan of [findall]: try the pattern at the current position; on
    success emit the match and go on after it, otherwise move one
    character to the right. *)
Equations? findall_from (before : option ascii) (s : string) : list string
  by wf (String.length s) lt :=
findall_from before s with inspect (match_here before s) := {
  | exist _ (Some (m, r)) Hm => m :: findall_from (last_char m) r
  | exist _ None _ with s := {
      | EmptyString => []
      | String c s' => findall_from (Some c) s' } }.
Proof. all: eauto using match_here_shorter. Qed.

Definition findall (s : string) : list string := findall_from None s.

(** Lines 67-68 of [preprocess_user_input]. *)
Definition tokenize (text : string) : list string := findall (lower text).

(** *** Runs of characters

    The maximal non-empty runs of characters of a class [p], from left
    to right; [cur] is the run being read. *)
Definition flush (cur : string) : list string :=
  match cur with
  | EmptyString => []
  | _ => [cur]
  end.

Fixpoint runs_from (p : ascii -> bool) (cur : string) (s : string) : list string :=
  match s with
  | EmptyString => flush cur
  | String c s' =>
      if p c then runs_from p (cur +:+ String c EmptyString) s'
      else flush cur ++ runs_from p EmptyString s'
  end.

Definition runs (p : ascii -> bool) (s : string) : list string :=
  runs_from p EmptyString s.

(** The tokenizer as the specification words it: the maximal runs of
    alphabetic characters of the lower-cased text. *)
Definition alphabetic_runs (text : string) : list string :=
  runs is_alpha (lower text).

(** The longest prefix of characters of class [p], and what follows. *)
Fixpoint span (p : ascii -> bool) (s : string) : string * string :=
  match s with
  | EmptyString => (EmptyString, EmptyString)
  | String c s' =>
      if p c then (String c (fst (span p s')), snd (span p s'))
      else (EmptyString, s)
  end.

End Tokenizer.

(** ** The fixed linguistic tables of [user_preprocess.py] *)

Module Tables.

Definition AUX_VERBS : gset string :=
  {[ "am"; "is"; "are"; "was"; "were"; "has"; "have"; "had" ]}.

Definition BASE_VERB_TO_ING : gmap string string :=
  {[ "be" := "being"; "have" := "having"; "do" := "doing"; "go" := "going";
     "rise" := "rising"; "come" := "coming"; "happen" := "happening";
     "move" := "moving"; "determine" := "determining"; "use" := "using" ]}.

Definition IRREGULAR_PAST : gmap string string :=
  {[ "move" := "moved"; "go" := "gone"; "come" := "come"; "rise" := "risen";
     "be" := "been"; "have" := "had"; "do" := "done" ]}.

Definition FUNCTION_WORDS : gset string :=
  {[ "this"; "that"; "a"; "an"; "the"; "and"; "or"; "of"; "in"; "on"; "for";
     "to"; "with"; "by"; "at" ]}.

(** The set literal of line 108. *)
Definition BE_FORMS : gset string := {[ "am"; "is"; "are"; "was"; "were" ]}.

(** The set literal of line 117. *)
Definition HAVE_FORMS : gset string := {[ "has"; "have"; "had" ]}.

(** [IRREGULAR_PAST.get(tok, tok)] *)
Definition past_of (tok : string) : string :=
  default tok (IRREGULAR_PAST !! tok).

End Tables.

(** ** The display grammar: [apply_display_grammar] *)

Module Grammar.
Import Tables.

(** The three local variables of the loop. *)
Record state := State {
  display_tokens : list string;
  grammar_indices : list nat;
  i : nat
}.

(** [display_tokens[-1] if i > 0 else ""]; indexing an empty list
    raises. *)
Definition prev_of (st : state) : option string :=
  if decide (0 < i st) then last (display_tokens st) else Some "".

(** One iteration of the [while] body (lines 102-138). *)
Definition body (tokens : list string) (st : state) : option state :=
  tok ← tokens !! i st;
  prev ← prev_of st;
  if decide (prev ∈ BE_FORMS ∧ is_Some (BASE_VERB_TO_ING !! tok)) then
    ing ← BASE_VERB_TO_ING !! tok;
    Some (State (display_tokens st ++ [ing])
                (grammar_indices st ++ [i st])
                (i st + 1))
  else if decide (prev ∈ HAVE_FORMS) then
    if decide (tok = "not" ∧ i st + 1 < length tokens) then
      next_tok ← tokens !! (i st + 1);
      let past_tok := past_of next_tok in
      Some (State (display_tokens st ++ [tok] ++ [past_tok])
                  (grammar_indices st ++ [i st + 1])
                  (i st + 2))
    else
      let past_tok := past_of tok in
      Some (State (display_tokens st ++ [past_tok])
                  (grammar_indices st ++ [i st])
                  (i st + 1))
  else
    Some (State (display_tokens st ++ [tok]) (grammar_indices st) (i st + 1)).

(** [while i < len(tokens): ...], with a bound on the number of
    iterations; [None] is an exception or an exhausted bound. *)
Fixpoint while (fuel : nat) (tokens : list string) (st : state) : option state :=
  if decide (i st < length tokens) then
    match fuel with
    | O => None
    | S fuel' => st' ← body tokens st; while fuel' tokens st'
    end
  else Some st.

Definition apply_display_grammar (tokens : list string)
  : option (list string * list nat) :=
  st ← while (length tokens) tokens (State [] [] 0);
  Some (display_tokens st, grammar_indices st).

(** The same pass written by recursion on the remaining tokens: [prev]
    is the last token emitted and [pos] the index of the first
    remaining token. *)
Fixpoint walk (prev : string) (pos : nat) (toks : list string)
  : list string * list nat :=
  match toks with
  | [] => ([], [])
  | tok :: rest =>
      if decide (prev ∈ BE_FORMS ∧ is_Some (BASE_VERB_TO_ING !! tok)) then
        let ing := default tok (BASE_VERB_TO_ING !! tok) in
        let r := walk ing (S pos) rest in
        (ing :: fst r, pos :: snd r)
      else if decide (prev ∈ HAVE_FORMS) then
        match decide (tok = "not"), rest with
        | left _, next_tok :: rest' =>
            let r := walk (past_of next_tok) (S (S pos)) rest' in
            (tok :: past_of next_tok :: fst r, S pos :: snd r)
        | _, _ =>
            let r := walk (past_of tok) (S pos) rest in
            (past_of tok :: fst r, pos :: snd r)
        end
      else
        let r := walk tok (S pos) rest in
        (tok :: fst r, snd r)
  end.

(** The display token in front of position [pos + k], when [prev]
    precedes position [pos]. *)
Definition before (prev : string) (d : list string) (pos j : nat) : string :=
  default "" ((prev :: d) !! (j - pos)).

End Grammar.

(** ** Ranking of suggestions ([app.py], lines 86-95) *)

Module Ranker.

(** Modelled from the spec: [edit_distance] is imported from
    [nltk.metrics], which is not part of the sources.  With its default
    arguments it is the Levenshtein distance, the least number of
    single-character deletions, insertions and substitutions, each of
    cost 1, that turn [s1] into [s2]. *)
Fixpoint edit_distance (s1 : string) : string -> nat :=
  fix against (s2 : string) : nat :=
    match s1, s2 with
    | EmptyString, _ => String.length s2
    | _, EmptyString => String.length s1
    | String c1 s1', String c2 s2' =>
        let delete := edit_distance s1' s2 + 1 in
        let insert := against s2' + 1 in
        let substitute :=
          edit_distance s1' s2' + (if decide (c1 = c2) then 0 else 1) in
        Nat.min (Nat.min delete insert) substitute
    end.

(** [sorted(l, key=key)]: Python's sort is stable, so the result is the
    stable arrangement of [l] by ascending key; insertion in front of
    the first element whose key is not smaller produces it. *)
Fixpoint insert_by {A} (key : A -> nat) (x : A) (l : list A) : list A :=
  match l with
  | [] => [x]
  | y :: l' =>
      if decide (key x <= key y) then x :: y :: l' else y :: insert_by key x l'
  end.

Definition sorted {A} (key : A -> nat) (l : list A) : list A :=
  foldr (insert_by key) [] l.

(** The order of the keys. *)
Definition key_le {A} (key : A -> nat) (x y : A) : Prop := key x <= key y.

(** An entry of the list returned by [detect_errors]: a dictionary with
    the keys ['word'], ['type'] and, possibly, ['suggestions']. *)
Record error := Error {
  err_word : string;
  err_type : string;
  err_suggestions : option (list string)
}.

(** Lines 91-94: the suggestions of one error, ranked. *)
Definition ranked (err : error) : list string :=
  sorted (fun w => edit_distance (err_word err) w)
         (default [] (err_suggestions err)).

(** Lines 89-95. *)
Definition suggestion_map (errors : list error) : gmap string (list string) :=
  foldl (fun m err => <[err_word err := ranked err]> m) ∅ errors.

(** Line 86. *)
Definition spelling_words (errors : list error) : gset string :=
  list_to_set (err_word <$> errors).

(** The three ways a display token is rendered: the red link of a
    spelling error, the green link of a grammar correction, or the
    word as it is. *)
Inductive mark := Red | Green | Plain.

(** Lines 98-106.  [FUNCTION_WORDS] is imported there from the module
    [corrections], which is not among the sources; it is the table of
    [user_preprocess.py]. *)
Definition highlighted_text (errors : list error)
    (display_version : list string) (grammar_indices : list nat)
  : list (mark * string) :=
  imap (fun i word =>
          let lw := Chars.lower word in
          if decide (lw ∈ spelling_words errors ∧ lw ∉ Tables.FUNCTION_WORDS)
          then (Red, word)
          else if decide (i ∈ grammar_indices) then (Green, word)
          else (Plain, word))
       display_version.

End Ranker.

(** ** Lemmatization and spelling detection *)

Module Detector.
Import Chars Tokenizer Tables Ranker.

Section WithTagger.

(** The part-of-speech tagger ([nltk.pos_tag]): [tag_of tokens k] is the
    tag it gives to the [k]-th token of the sentence [tokens]. *)
Variable tag_of : list string -> nat -> string.

(** [WordNetLemmatizer.lemmatize(word, pos)]. *)
Variable lemmatize : string -> string -> string.

(** The candidate corrections proposed for a flagged lemma. *)
Variable candidates : gset string -> string -> list string.

Definition pos_tag (tokens : list string) : list (string * string) :=
  imap (fun k word => (word, tag_of tokens k)) tokens.

(** [tag.startswith("V")] *)
Definition starts_with_V (tag : string) : bool :=
  match tag with
  | String c _ => bool_decide (c = "V"%char)
  | EmptyString => false
  end.

Definition preprocess_user_input (text : string) : list string :=
  let text := lower text in
  let tokens := findall text in
  let tagged_tokens := pos_tag tokens in
  (fun wt : string * string =>
     let (word, tag) := wt in
     if decide (word ∈ AUX_VERBS) then word
     else if starts_with_V tag then lemmatize word "v"
     else lemmatize word "n") <$> tagged_tokens.

(** Modelled from the spec: [detect_errors] lives in the module
    [corrections], which is not among the sources.  It returns, without
    duplicates, the lemmas that are not in the vocabulary, not function
    words and not auxiliary verbs, each classified as a spelling error
    with its candidate list. *)
Definition flagged (vocab : gset string) (lemmas : list string) : list string :=
  remove_dups
    (filter (fun w => (w ∉ vocab) ∧ (w ∉ FUNCTION_WORDS) ∧ (w ∉ AUX_VERBS)) lemmas).

(** Modelled from the spec: [detect_errors] of the missing module
    [corrections], on the lemmas of [preprocess_user_input]; one
    spelling error per flagged lemma, with the candidates requested for
    it. *)
Definition detect_errors (vocab : gset string) (text : string) : list error :=
  (fun w => Error w "spelling" (Some (candidates vocab w)))
    <$> flagged vocab (preprocess_user_input text).

End WithTagger.

End Detector.

(** ** The rest of [app.py]: the input check and the error details *)

Module Details.
Import Chars Ranker.

(** [str.isspace] on one character. *)
Definition is_space (c : ascii) : bool :=
  in_range 9 13 c || in_range 28 32 c || (code c =? 133)%N || (code c =? 160)%N.

Fixpoint lstrip (s : string) : string :=
  match s with
  | EmptyString => EmptyString
  | String c s' => if is_space c then lstrip s' else s
  end.

Fixpoint rstrip (s : string) : string :=
  match s with
  | EmptyString => EmptyString
  | String c s' =>
      match rstrip s' with
      | EmptyString => if is_space c then EmptyString else String c EmptyString
      | r => String c r
      end
  end.

(** [user_input.strip()] *)
Definition strip (s : string) : string := rstrip (lstrip s).

(** Line 78: [not user_input.strip()], the texts that get the warning
    instead of a check. *)
Definition is_blank (user_input : string) : bool :=
  bool_decide (strip user_input = EmptyString).

(** Line 124: [next((err['type'] for err in errors if err['word']==lw),
    "grammar")]. *)
Definition error_type (errors : list error) (lw : string) : string :=
  default "grammar"
    (err_type <$> head (filter (fun err => err_word err = lw) errors)).

(** One expander of the details section: its word, its error type and
    the lines of suggestions with their distances (no line stands for
    the note that nothing was found). *)
Record detail := Detail {
  det_word : string;
  det_type : string;
  det_lines : list (string * nat)
}.

(** Lines 117-132. *)
Definition error_details (errors : list error)
    (display_version : list string) (grammar_indices : list nat)
  : list detail :=
  match errors with
  | [] => []
  | _ =>
      omap id
        (imap (fun i word =>
                 let lw := lower word in
                 if decide (lw ∈ spelling_words errors ∨ i ∈ grammar_indices)
                 then
                   let suggestions := default [] (suggestion_map errors !! lw) in
                   Some (Detail word (error_type errors lw)
                           ((fun s => (s, edit_distance lw s)) <$> suggestions))
                 else None)
              display_version)
  end.

End Details.

(** ** [build_biagram.py]: the bigram and unigram counts *)

Module Bigram.

(** [Counter(iterable)]: each element is counted up from the count it
    has, zero when it is missing. *)
Definition Counter `{Countable K} (l : list K) : gmap K nat :=
  foldl (fun m x => <[x := default 0 (m !! x) + 1]> m) ∅ l.

(** Line 10: [[(tokens[i], tokens[i+1]) for i in range(len(tokens)-1)]];
    the range is empty when there is no token, and an index out of range
    raises. *)
Definition bigrams (tokens : list string) : option (list (string * string)) :=
  mapM (fun i => a ← tokens !! i; b ← tokens !! (i + 1); Some (a, b))
       (seq 0 (length tokens - 1)).

(** Line 11. *)
Definition bigram_counts (tokens : list string)
  : option (gmap (string * string) nat) :=
  Counter <$> bigrams tokens.

(** Line 14. *)
Definition unigram_counts (tokens : list string) : gmap string nat :=
  Counter tokens.

(** The number of occurrences of [x] in [l]. *)
Definition occurrences `{EqDecision K} (x : K) (l : list K) : nat :=
  length (filter (fun y => y = x) l).

End Bigram.

(** ** Why a position of the display grammar is recorded *)

Module GrammarReasons.
Import Tables.

(** Position [k] of a pass that starts after [prev], reads [toks] and
    emits [d]: the token emitted there is the participle of the lemma
    read there, after a form of "be", after a form of "have", or after
    a form of "have" and a "not". *)
Definition recorded_because (prev : string) (toks d : list string) (k : nat)
  : Prop :=
  exists tok out,
    toks !! k = Some tok ∧ d !! k = Some out ∧
    ((exists p, (prev :: d) !! k = Some p ∧ p ∈ BE_FORMS ∧
                BASE_VERB_TO_ING !! tok = Some out) ∨
     (exists p, (prev :: d) !! k = Some p ∧ p ∈ HAVE_FORMS ∧
                out = past_of tok) ∨
     (exists i p, k = S i ∧ (prev :: d) !! i = Some p ∧ p ∈ HAVE_FORMS ∧
                  toks !! i = Some "not" ∧ d !! i = Some "not" ∧
                  out = past_of tok)).

(** What a display token can be, given the lemma of its position. *)
Definition form_of (tok out : string) : Prop :=
  out = tok ∨ BASE_VERB_TO_ING !! tok = Some out ∨
  IRREGULAR_PAST !! tok = Some out.

End GrammarReasons.

(** ** Statements of the specification that the code is checked against *)

Module Claimed.
Import Tokenizer Grammar Ranker.

(** C1, as stated. *)
Definition recieve_example : Prop :=
  edit_distance "recieve" "receive" = 2 ∧
  edit_distance "recieve" "relieve" = 3 ∧
  take 2 (ranked (Error "recieve" "spelling" (Some ["receive"; "relieve"])))
  = ["receive"; "relieve"].

(** C2, as stated: the tokens are exactly the maximal runs of
    alphabetic characters. *)
Definition tokens_are_alphabetic_runs (text : string) : Prop :=
  tokenize text = alphabetic_runs text.

(** C3, as stated: a second pass over the display tokens returns the
    same display tokens and the same set of corrected positions. *)
Definition second_pass_same_result (tokens : list string) : Prop :=
  exists d g g',
    apply_display_grammar tokens = Some (d, g) ∧
    apply_display_grammar d = Some (d, g') ∧
    (list_to_set g' : gset nat) = list_to_set g.

(** [WORD_FREQ.get(w, 0)] *)
Definition frequency (word_freq : gmap string nat) (w : string) : nat :=
  default 0 (word_freq !! w).

(** C5, as stated: of two ranked suggestions at the same distance, the
    one in front has the higher corpus frequency or, at equal
    frequency, is the lexicographically smaller one. *)
Definition ties_by_frequency_then_lexicographic
    (word_freq : gmap string nat) (err : error) : Prop :=
  forall j k a b,
    j < k -> ranked err !! j = Some a -> ranked err !! k = Some b ->
    edit_distance (err_word err) a = edit_distance (err_word err) b ->
    frequency word_freq b < frequency word_freq a ∨
    (frequency word_freq a = frequency word_freq b ∧ String.leb a b = true).

End Claimed.

(** * Properties *)

(** ** Facts about the fixed tables *)

Module TableFacts.
Import Tables.

Lemma be_not_have prev : prev ∈ BE_FORMS -> prev ∉ HAVE_FORMS.
Proof.
  revert prev. change (set_Forall (fun x => x ∉ HAVE_FORMS) BE_FORMS).
  apply (bool_decide_unpack _). by vm_compute.
Qed.

Lemma ing_not_key tok ing :
  BASE_VERB_TO_ING !! tok = Some ing -> BASE_VERB_TO_ING !! ing = None.
Proof.
  revert tok ing.
  change (map_Forall (fun _ v => BASE_VERB_TO_ING !! v = None) BASE_VERB_TO_ING).
  apply (bool_decide_unpack _). by vm_compute.
Qed.

Lemma past_values :
  map_Forall (fun _ v => past_of v = v ∧ v ≠ "not") IRREGULAR_PAST.
Proof. apply (bool_decide_unpack _). by vm_compute. Qed.

Lemma past_of_idem tok : past_of (past_of tok) = past_of tok.
Proof.
  unfold past_of at 2 3. destruct (IRREGULAR_PAST !! tok) as [v|] eqn:E; simpl.
  - by apply past_values in E as [? _].
  - unfold past_of. by rewrite E.
Qed.

Lemma past_of_not tok : past_of tok = "not" -> tok = "not".
Proof.
  unfold past_of. destruct (IRREGULAR_PAST !! tok) as [v|] eqn:E; simpl; [|done].
  by apply past_values in E as [_ ?].
Qed.

End TableFacts.

(** ** The display grammar *)

Module GrammarFacts.
Import Tables TableFacts Grammar.

(** The token in front of the cursor, when the loop invariant
    [len(display_tokens) = i] holds. *)
Lemma prev_of_last dt gi n :
  length dt = n -> prev_of (State dt gi n) = Some (default "" (last dt)).
Proof.
  intros Hlen. unfold prev_of; simpl. case_decide as Hn.
  - destruct (last dt) eqn:E; [done|].
    apply last_None in E. subst dt. simpl in Hlen. lia.
  - destruct dt; [done|simpl in Hlen; lia].
Qed.

Local Ltac finish :=
  simpl; rewrite ?Nat.add_succ_r, ?Nat.add_0_r, <- ?app_assoc; done.

(** The loop computes [walk]: from a state that has consumed [pre] and
    emitted as many tokens, enough iterations finish the pass. *)
Lemma while_walk fuel : forall tokens pre rest dt gi n,
  tokens = pre ++ rest -> n = length pre -> length dt = n ->
  length rest <= fuel ->
  while fuel tokens (State dt gi n)
  = Some (State (dt ++ fst (walk (default "" (last dt)) n rest))
                (gi ++ snd (walk (default "" (last dt)) n rest))
                (length tokens)).
Proof.
  induction fuel as [|fuel IH]; intros tokens pre rest dt gi n Htok Hn Hdt Hfuel.
  { destruct rest; [|simpl in Hfuel; lia].
    rewrite app_nil_r in Htok. subst. simpl. rewrite !app_nil_r.
    by rewrite decide_False by lia. }
  destruct rest as [|tok rest].
  { rewrite app_nil_r in Htok. subst. simpl. rewrite !app_nil_r.
    by rewrite decide_False by lia. }
  assert (Hlen : length tokens = n + S (length rest))
    by (subst; rewrite length_app; simpl; lia).
  assert (Hlook : tokens !! n = Some tok)
    by (subst; by apply list_lookup_middle).
  cbn [while i]. rewrite decide_True by lia.
  unfold body. cbn [i display_tokens grammar_indices].
  rewrite Hlook, prev_of_last by done. cbn [mbind option_bind].
  set (prev := default "" (last dt)).
  cbn [walk]. fold prev.
  assert (Hnext : forall out suffix emitted gi',
    tok :: rest = out ++ suffix -> length emitted = length out ->
    out <> [] ->
    while fuel tokens (State (dt ++ emitted) gi' (n + length out))
    = Some (State
        (dt ++ emitted ++
           fst (walk (default "" (last (dt ++ emitted))) (n + length out) suffix))
        (gi' ++
           snd (walk (default "" (last (dt ++ emitted))) (n + length out) suffix))
        (length tokens))).
  { intros out suffix emitted gi' Heq Hout Hne.
    rewrite (app_assoc dt).
    apply (IH tokens (pre ++ out) suffix).
    - by rewrite <- app_assoc, <- Heq.
    - rewrite length_app; lia.
    - rewrite !length_app; lia.
    - apply (f_equal length) in Heq. rewrite length_app in Heq.
      destruct out; [done|]. simpl in *. lia. }
  assert (Hlast2 : forall a b : string, last (dt ++ [a; b]) = Some b)
    by (intros a b; change (dt ++ [a; b]) with (dt ++ [a] ++ [b]);
        by rewrite (app_assoc dt [a] [b]), last_snoc).
  destruct (decide (prev ∈ BE_FORMS ∧ is_Some (BASE_VERB_TO_ING !! tok)))
    as [[_ [ing Hing]]|_].
  { rewrite Hing. cbn [mbind option_bind default fst snd].
    etrans; [apply (Hnext [tok] rest [ing]); done|].
    rewrite last_snoc. finish. }
  destruct (decide (prev ∈ HAVE_FORMS)) as [_|_].
  - destruct (decide (tok = "not")) as [Hnot|Hnot];
      [destruct rest as [|next_tok rest]|].
    + rewrite decide_False by (simpl in Hlen; lia).
      cbn [mbind option_bind fst snd].
      etrans; [apply (Hnext [tok] [] [past_of tok]); done|].
      rewrite last_snoc. finish.
    + rewrite decide_True by (simpl in Hlen; split; [done|lia]).
      assert (tokens !! (n + 1) = Some next_tok) as ->.
      { subst tokens n.
        change (pre ++ tok :: next_tok :: rest)
          with (pre ++ [tok] ++ next_tok :: rest).
        rewrite (app_assoc pre [tok]).
        apply list_lookup_middle. rewrite length_app. simpl. lia. }
      cbn [mbind option_bind fst snd].
      etrans; [apply (Hnext [tok; next_tok] rest [tok; past_of next_tok]); done|].
      rewrite Hlast2. finish.
    + rewrite decide_False by (by intros [? _]).
      cbn [mbind option_bind fst snd].
      etrans; [apply (Hnext [tok] rest [past_of tok]); done|].
      rewrite last_snoc. destruct rest; finish.
  - cbn [mbind option_bind fst snd].
    etrans; [apply (Hnext [tok] rest [tok]); done|].
    rewrite last_snoc. finish.
Qed.

(** The pass never raises and never runs out of iterations. *)
Lemma apply_display_grammar_walk tokens :
  apply_display_grammar tokens = Some (walk "" 0 tokens).
Proof.
  unfold apply_display_grammar.
  rewrite (while_walk (length tokens) tokens [] tokens [] [] 0) by done.
  simpl. by destruct (walk "" 0 tokens).
Qed.

(** Induction along the cases of the pass. *)
Lemma walk_cases (P : string -> nat -> list string -> list string * list nat -> Prop) :
  (forall prev pos, P prev pos [] ([], [])) ->
  (forall prev pos tok rest ing,
     prev ∈ BE_FORMS -> BASE_VERB_TO_ING !! tok = Some ing ->
     P ing (S pos) rest (walk ing (S pos) rest) ->
     P prev pos (tok :: rest)
       (ing :: fst (walk ing (S pos) rest), pos :: snd (walk ing (S pos) rest))) ->
  (forall prev pos tok next_tok rest,
     prev ∈ HAVE_FORMS -> tok = "not" ->
     P (past_of next_tok) (S (S pos)) rest (walk (past_of next_tok) (S (S pos)) rest) ->
     P prev pos (tok :: next_tok :: rest)
       (tok :: past_of next_tok :: fst (walk (past_of next_tok) (S (S pos)) rest),
        S pos :: snd (walk (past_of next_tok) (S (S pos)) rest))) ->
  (forall prev pos tok rest,
     prev ∈ HAVE_FORMS -> tok <> "not" \/ rest = [] ->
     P (past_of tok) (S pos) rest (walk (past_of tok) (S pos) rest) ->
     P prev pos (tok :: rest)
       (past_of tok :: fst (walk (past_of tok) (S pos) rest),
        pos :: snd (walk (past_of tok) (S pos) rest))) ->
  (forall prev pos tok rest,
     ~ (prev ∈ BE_FORMS ∧ is_Some (BASE_VERB_TO_ING !! tok)) ->
     prev ∉ HAVE_FORMS ->
     P tok (S pos) rest (walk tok (S pos) rest) ->
     P prev pos (tok :: rest)
       (tok :: fst (walk tok (S pos) rest), snd (walk tok (S pos) rest))) ->
  forall prev pos toks, P prev pos toks (walk prev pos toks).
Proof.
  intros Hnil Hing Hneg Hpast Hcopy prev pos toks.
  remember (length toks) as n eqn:Hn. revert prev pos toks Hn.
  induction n as [n IH] using lt_wf_ind. intros prev pos [|tok rest] Hn.
  { apply Hnil. }
  cbn [walk].
  destruct (decide (prev ∈ BE_FORMS ∧ is_Some (BASE_VERB_TO_ING !! tok)))
    as [[Hbe [ing Hlook]]|Hno].
  { rewrite Hlook. cbn [default]. apply Hing; [done..|].
    apply (IH (length rest)); [simpl in Hn; lia|done]. }
  destruct (decide (prev ∈ HAVE_FORMS)) as [Hhave|Hhave].
  - destruct (decide (tok = "not")) as [Hnot|Hnot];
      [destruct rest as [|next_tok rest]|].
    + apply Hpast; [done|by right|]. apply Hnil.
    + apply Hneg; [done..|].
      apply (IH (length rest)); [simpl in Hn; lia|done].
    + assert (Hgoal : P prev pos (tok :: rest)
        (past_of tok :: fst (walk (past_of tok) (S pos) rest),
         pos :: snd (walk (past_of tok) (S pos) rest))).
      { apply Hpast; [done|by left|].
        apply (IH (length rest)); [simpl in Hn; lia|done]. }
      by destruct rest.
  - apply Hcopy; [done..|].
    apply (IH (length rest)); [simpl in Hn; lia|done].
Qed.

Lemma walk_length prev pos toks :
  length (fst (walk prev pos toks)) = length toks.
Proof.
  revert prev pos toks.
  apply (walk_cases (fun _ _ toks r => length (fst r) = length toks));
    intros; simpl in *; lia.
Qed.

Lemma walk_indices_range prev pos toks :
  Forall (fun j => pos <= j < pos + length toks) (snd (walk prev pos toks)).
Proof.
  revert prev pos toks.
  apply (walk_cases (fun _ pos toks r =>
           Forall (fun j => pos <= j < pos + length toks) (snd r)));
    intros; cbn [fst snd length] in *;
    repeat (apply Forall_cons; split; [lia|]);
    try (eapply Forall_impl; [eassumption|]; cbn beta; intros; lia).
  apply Forall_nil_2.
Qed.

Lemma walk_indices_sorted prev pos toks :
  StronglySorted lt (snd (walk prev pos toks)).
Proof.
  revert prev pos toks.
  apply (walk_cases (fun _ _ _ r => StronglySorted lt (snd r)));
    intros; cbn [fst snd] in *;
    try (apply SSorted_cons; [done|]);
    try (eapply Forall_impl; [apply walk_indices_range|]; cbn beta; intros; lia);
    try done.
  apply SSorted_nil.
Qed.

Lemma walk_frame prev pos toks :
  forall k, pos + k ∉ snd (walk prev pos toks) ->
    fst (walk prev pos toks) !! k = toks !! k.
Proof.
  revert prev pos toks.
  apply (walk_cases (fun _ pos toks r =>
           forall k, pos + k ∉ snd r -> fst r !! k = toks !! k));
    cbn [fst snd]; [done|..].
  - intros prev pos tok rest ing _ _ IH [|k] Hk.
    + exfalso. apply Hk. rewrite Nat.add_0_r. apply list_elem_of_here.
    + simpl. apply IH. intros Hin. apply Hk.
      rewrite Nat.add_succ_r. by apply list_elem_of_further.
  - intros prev pos tok next_tok rest _ _ IH [|[|k]] Hk.
    + done.
    + exfalso. apply Hk. rewrite Nat.add_1_r. apply list_elem_of_here.
    + simpl. apply IH. intros Hin. apply Hk.
      rewrite !Nat.add_succ_r. by apply list_elem_of_further.
  - intros prev pos tok rest _ _ IH [|k] Hk.
    + exfalso. apply Hk. rewrite Nat.add_0_r. apply list_elem_of_here.
    + simpl. apply IH. intros Hin. apply Hk.
      rewrite Nat.add_succ_r. by apply list_elem_of_further.
  - intros prev pos tok rest _ _ IH [|k] Hk.
    + done.
    + simpl. apply IH. intros Hin. apply Hk. by rewrite Nat.add_succ_r.
Qed.

Lemma filter_ext_Forall {A} (P Q : A -> Prop)
    `{!forall x, Decision (P x)} `{!forall x, Decision (Q x)} (l : list A) :
  Forall (fun x => P x <-> Q x) l -> filter P l = filter Q l.
Proof.
  induction 1 as [|x l Hx _ IH]; [done|].
  rewrite !filter_cons, IH. repeat case_decide; tauto.
Qed.

Lemma filter_before_shift prev x d pos g :
  Forall (fun j => S pos <= j) g ->
  filter (fun j => before prev (x :: d) pos j ∉ BE_FORMS) g
  = filter (fun j => before x d (S pos) j ∉ BE_FORMS) g.
Proof.
  intros Hg. apply filter_ext_Forall.
  eapply Forall_impl; [exact Hg|]. intros j Hj. cbn beta in Hj. unfold before.
  replace (j - pos) with (S (j - S pos)) by lia. done.
Qed.

Lemma filter_before_shift2 prev x y d pos g :
  Forall (fun j => S (S pos) <= j) g ->
  filter (fun j => before prev (x :: y :: d) pos j ∉ BE_FORMS) g
  = filter (fun j => before y d (S (S pos)) j ∉ BE_FORMS) g.
Proof.
  intros Hg. apply filter_ext_Forall.
  eapply Forall_impl; [exact Hg|]. intros j Hj. cbn beta in Hj. unfold before.
  replace (j - pos) with (S (S (j - S (S pos)))) by lia. done.
Qed.

Lemma walk_indices_from prev pos toks :
  Forall (fun j => pos <= j) (snd (walk prev pos toks)).
Proof.
  eapply Forall_impl; [apply walk_indices_range|]. cbn beta. intros; lia.
Qed.

(** A second pass over the display tokens: they stay as they are, and
    the positions recorded again are those that do not follow a form of
    "be". *)
Lemma walk_second_pass prev pos toks d g :
  walk prev pos toks = (d, g) ->
  walk prev pos d = (d, filter (fun j => before prev d pos j ∉ BE_FORMS) g).
Proof.
  revert prev pos toks d g.
  apply (walk_cases (fun prev pos _ r => forall d g, r = (d, g) ->
           walk prev pos d
           = (d, filter (fun j => before prev d pos j ∉ BE_FORMS) g))).
  - by intros prev pos d g [= <- <-].
  - intros prev pos tok rest ing Hbe Hing IH d g [= <- <-]. cbn [walk].
    rewrite decide_False
      by (intros [_ [? ?]]; apply ing_not_key in Hing; congruence).
    rewrite decide_False by (by apply be_not_have).
    rewrite (IH _ _ (surjective_pairing _)). cbn [fst snd].
    rewrite filter_cons_False
      by (unfold before; rewrite Nat.sub_diag; simpl; tauto).
    by rewrite filter_before_shift by apply walk_indices_from.
  - intros prev pos tok next_tok rest Hhave -> IH d g [= <- <-]. cbn [walk].
    rewrite decide_False by (intros [Hbe _]; by apply be_not_have in Hbe).
    rewrite decide_True by done.
    destruct (decide ("not" = "not")) as [_|?]; [|done].
    rewrite past_of_idem, (IH _ _ (surjective_pairing _)). cbn [fst snd].
    rewrite filter_cons_True.
    2:{ unfold before. replace (S pos - pos) with 1 by lia. simpl.
        by vm_compute. }
    by rewrite filter_before_shift2 by apply walk_indices_from.
  - intros prev pos tok rest Hhave Hcase IH d g [= <- <-]. cbn [walk].
    rewrite decide_False by (intros [Hbe _]; by apply be_not_have in Hbe).
    rewrite decide_True by done.
    assert (Hplain :
      match decide (past_of tok = "not"), fst (walk (past_of tok) (S pos) rest) with
      | left _, next_tok :: rest' =>
          (past_of tok :: past_of next_tok
             :: fst (walk (past_of next_tok) (S (S pos)) rest'),
           S pos :: snd (walk (past_of next_tok) (S (S pos)) rest'))
      | _, _ =>
          (past_of (past_of tok)
             :: fst (walk (past_of (past_of tok)) (S pos)
                       (fst (walk (past_of tok) (S pos) rest))),
           pos :: snd (walk (past_of (past_of tok)) (S pos)
                         (fst (walk (past_of tok) (S pos) rest))))
      end
      = (past_of (past_of tok)
           :: fst (walk (past_of (past_of tok)) (S pos)
                     (fst (walk (past_of tok) (S pos) rest))),
         pos :: snd (walk (past_of (past_of tok)) (S pos)
                       (fst (walk (past_of tok) (S pos) rest))))).
    { destruct (decide (past_of tok = "not")) as [Hnot|_]; [|done].
      apply past_of_not in Hnot. destruct Hcase as [?| ->]; done. }
    rewrite Hplain. clear Hplain.
    rewrite past_of_idem, (IH _ _ (surjective_pairing _)). cbn [fst snd].
    rewrite filter_cons_True.
    2:{ unfold before. rewrite Nat.sub_diag. simpl.
        intros Hbe. by apply be_not_have in Hbe. }
    by rewrite filter_before_shift by apply walk_indices_from.
  - intros prev pos tok rest Hno Hhave IH d g [= <- <-]. cbn [walk].
    rewrite decide_False by done. rewrite decide_False by done.
    rewrite (IH _ _ (surjective_pairing _)). cbn [fst snd].
    by rewrite filter_before_shift by apply walk_indices_from.
Qed.

End GrammarFacts.

Module GrammarClaims.
Import Tables TableFacts Grammar GrammarFacts Claimed.

(** C3, counterexample: on [is, rise] the first pass records position 1
    (Rule A rewrites "rise" to "rising"); the second pass over
    [is, rising] records nothing. *)
Lemma C3_second_pass_drops_rule_A_positions :
  ~ second_pass_same_result ["is"; "rise"].
Proof.
  intros (d & g & g' & H1 & H2 & Hset).
  rewrite apply_display_grammar_walk in H1. vm_compute in H1.
  injection H1 as <- <-.
  rewrite apply_display_grammar_walk in H2. vm_compute in H2.
  injection H2 as <-.
  assert (H : 1 ∈ (list_to_set [1] : gset nat)) by (by apply (bool_decide_unpack _)).
  rewrite <- Hset in H. simpl in H. by apply not_elem_of_empty in H.
Qed.

(** C3, amended: the pass applied to its own display tokens returns the
    same display tokens; the positions it records are the positions of
    the first pass whose preceding display token is not a form of "be",
    so positions corrected by Rule A are not recorded again. *)
Theorem C3_second_pass_keeps_display (tokens : list string) :
  exists d g,
    apply_display_grammar tokens = Some (d, g) ∧
    apply_display_grammar d
    = Some (d, filter (fun j => default "" (("" :: d) !! j) ∉ BE_FORMS) g).
Proof.
  exists (fst (walk "" 0 tokens)), (snd (walk "" 0 tokens)).
  rewrite !apply_display_grammar_walk. split.
  - by rewrite <- surjective_pairing.
  - f_equal. rewrite (walk_second_pass "" 0 tokens _ _ (surjective_pairing _)).
    f_equal. apply filter_ext_Forall, Forall_forall. intros j _.
    unfold before. by rewrite Nat.sub_0_r.
Qed.

(** C4: the display sequence has exactly the length of the input
    sequence, for every input. *)
Theorem C4_display_length (tokens : list string) :
  exists d g,
    apply_display_grammar tokens = Some (d, g) ∧ length d = length tokens.
Proof.
  exists (fst (walk "" 0 tokens)), (snd (walk "" 0 tokens)).
  rewrite apply_display_grammar_walk, <- surjective_pairing.
  split; [done|apply walk_length].
Qed.

(** C7: every corrected position is a valid index into the display
    sequence. *)
Theorem C7_corrected_positions_in_range (tokens : list string) :
  exists d g,
    apply_display_grammar tokens = Some (d, g) ∧
    Forall (fun j => 0 <= j < length d) g.
Proof.
  exists (fst (walk "" 0 tokens)), (snd (walk "" 0 tokens)).
  rewrite apply_display_grammar_walk, <- surjective_pairing.
  split; [done|]. rewrite walk_length.
  apply (walk_indices_range "" 0 tokens).
Qed.

(** C9: a position that is not recorded as corrected holds the input
    lemma of that position. *)
Theorem C9_unrecorded_positions_unchanged (tokens : list string) :
  exists d g,
    apply_display_grammar tokens = Some (d, g) ∧
    forall k, k ∉ g -> d !! k = tokens !! k.
Proof.
  exists (fst (walk "" 0 tokens)), (snd (walk "" 0 tokens)).
  rewrite apply_display_grammar_walk, <- surjective_pairing.
  split; [done|]. intros k Hk. by apply walk_frame.
Qed.

(** C10: the corrected positions are recorded in strictly increasing
    order, hence without duplicates. *)
Theorem C10_corrected_positions_increasing (tokens : list string) :
  exists d g,
    apply_display_grammar tokens = Some (d, g) ∧
    StronglySorted lt g ∧ Sorted lt g ∧ NoDup g.
Proof.
  exists (fst (walk "" 0 tokens)), (snd (walk "" 0 tokens)).
  rewrite apply_display_grammar_walk, <- surjective_pairing.
  split; [done|].
  pose proof (walk_indices_sorted "" 0 tokens) as Hs.
  split; [done|]. split; [by apply StronglySorted_Sorted|].
  induction Hs as [|j g _ IH Hall]; [apply NoDup_nil_2|].
  apply NoDup_cons. split; [|done].
  intros Hin. rewrite Forall_forall in Hall. apply Hall in Hin. lia.
Qed.

End GrammarClaims.

(** ** The ranking of suggestions *)

Module RankerFacts.
Import Ranker.

Section Sorted.
Context {A : Type} (key : A -> nat).

Lemma insert_by_Permutation x l : insert_by key x l ≡ₚ x :: l.
Proof.
  induction l as [|y l IH]; simpl; [done|].
  case_decide; [done|]. by rewrite IH, Permutation_swap.
Qed.

Lemma sorted_Permutation l : sorted key l ≡ₚ l.
Proof.
  induction l as [|x l IH]; simpl; [done|].
  by rewrite insert_by_Permutation, IH.
Qed.

Lemma insert_by_sorted x l :
  StronglySorted (key_le key) l -> StronglySorted (key_le key) (insert_by key x l).
Proof.
  induction 1 as [|y l Hl IH Hy]; simpl.
  - repeat constructor.
  - case_decide as Hxy.
    + apply SSorted_cons; [by apply SSorted_cons|].
      apply Forall_cons. split; [done|].
      eapply Forall_impl; [exact Hy|]. unfold key_le. intros; lia.
    + apply SSorted_cons; [done|].
      rewrite insert_by_Permutation. apply Forall_cons.
      split; [unfold key_le; lia|done].
Qed.

Lemma sorted_sorted l : StronglySorted (key_le key) (sorted key l).
Proof.
  induction l as [|x l IH]; simpl; [constructor|by apply insert_by_sorted].
Qed.

(** Stability: the elements of one key keep their order. *)
Lemma insert_by_stable d x l :
  filter (fun y => key y = d) (insert_by key x l)
  = filter (fun y => key y = d) (x :: l).
Proof.
  induction l as [|y l IH]; simpl; [done|].
  case_decide as Hxy; [done|].
  rewrite (filter_cons _ y), IH, !filter_cons.
  repeat case_decide; try done; lia.
Qed.

Lemma sorted_stable d l :
  filter (fun y => key y = d) (sorted key l) = filter (fun y => key y = d) l.
Proof.
  induction l as [|x l IH]; simpl; [done|].
  by rewrite insert_by_stable, !filter_cons, IH.
Qed.

(** In a sorted list an element of smaller key stands in front of an
    element of larger key. *)
Lemma sorted_smaller_key_first l a b :
  a ∈ l -> b ∈ l -> key a < key b ->
  exists l1 l2 l3, sorted key l = l1 ++ a :: l2 ++ b :: l3.
Proof.
  intros Ha Hb Hlt.
  pose proof (sorted_sorted l) as Hs.
  rewrite <- (sorted_Permutation l) in Ha, Hb.
  apply list_elem_of_split in Ha as (l1 & r & Heq).
  rewrite Heq in Hb, Hs.
  apply elem_of_app in Hb as [Hb|Hb].
  - pose proof (StronglySorted_app_1_elem_of _ _ _ b a Hs Hb
                  (list_elem_of_here _ _)) as Hle.
    unfold key_le in Hle. lia.
  - apply elem_of_cons in Hb as [->|Hb]; [lia|].
    apply list_elem_of_split in Hb as (l2 & l3 & ->). by exists l1, l2, l3.
Qed.

End Sorted.

(** Every entry of [suggestion_map] is the ranked list of one of the
    errors. *)
Lemma suggestion_map_lookup errors w l :
  suggestion_map errors !! w = Some l ->
  exists err, err ∈ errors ∧ err_word err = w ∧ l = ranked err.
Proof.
  unfold suggestion_map.
  induction errors as [|err errors IH] using rev_ind; [done|].
  rewrite foldl_app. simpl.
  destruct (decide (err_word err = w)) as [<-|Hne].
  - rewrite lookup_insert_eq. intros [= <-].
    exists err. split; [|done]. apply elem_of_app. right. apply list_elem_of_here.
  - rewrite lookup_insert_ne by done. intros (err' & Hin & Hw & Hl)%IH.
    exists err'. split; [|done]. apply elem_of_app. by left.
Qed.

End RankerFacts.

Module RankerClaims.
Import Ranker RankerFacts Claimed.

(** C1, counterexample: "recieve" and "relieve" differ in one letter,
    so the distance is 1 and "relieve" is ranked first. *)
Lemma C1_relieve_is_at_distance_1 :
  edit_distance "recieve" "relieve" = 1 ∧
  ranked (Error "recieve" "spelling" (Some ["receive"; "relieve"]))
  = ["relieve"; "receive"] ∧
  ~ recieve_example.
Proof.
  split; [by vm_compute|]. split; [by vm_compute|].
  intros (_ & H & _). vm_compute in H. discriminate.
Qed.

(** C1, amended: the distance from "recieve" to "receive" is 2 and to
    "relieve" is 1, and whenever both are among the suggestions the
    ranked list has "relieve" in front of "receive". *)
Theorem C1_recieve_ranking (ty : string) (suggestions : list string)
    (Hreceive : "receive" ∈ suggestions) (Hrelieve : "relieve" ∈ suggestions) :
  edit_distance "recieve" "receive" = 2 ∧
  edit_distance "recieve" "relieve" = 1 ∧
  exists l1 l2 l3,
    ranked (Error "recieve" ty (Some suggestions))
    = l1 ++ "relieve" :: l2 ++ "receive" :: l3.
Proof.
  split; [by vm_compute|]. split; [by vm_compute|].
  apply sorted_smaller_key_first; [done..|]. vm_compute. lia.
Qed.

Lemma C1_recieve_ranking_witness :
  ranked (Error "recieve" "spelling" (Some ["receive"; "relieve"]))
  = ["relieve"; "receive"] ∧
  exists l1 l2 l3,
    ranked (Error "recieve" "spelling" (Some ["receive"; "relieve"]))
    = l1 ++ "relieve" :: l2 ++ "receive" :: l3.
Proof.
  split; [reflexivity|].
  apply (C1_recieve_ranking "spelling" ["receive"; "relieve"]).
  - apply list_elem_of_here.
  - apply list_elem_of_further, list_elem_of_here.
Defined.

(** C5, counterexample: "cat" and "bat" are both at distance 1 from
    "hat"; supplied in the order [cat, bat] they stay in that order,
    although "bat" is the more frequent and the lexicographically
    smaller one. *)
Lemma C5_ties_keep_incoming_order :
  ~ ties_by_frequency_then_lexicographic
      {[ "bat" := 5; "cat" := 1 ]}
      (Error "hat" "spelling" (Some ["cat"; "bat"])).
Proof.
  intros H. specialize (H 0 1 "cat" "bat").
  destruct H as [H|[H _]]; try done; try lia; vm_compute in H; lia.
Qed.

(** C5, amended: the ranking is by ascending edit distance only; 
    suggestions of equal distance keep the order in which they were
    supplied, and the corpus frequency is not consulted. *)
Theorem C5_ties_are_stable (err : error) :
  StronglySorted
    (fun a b => edit_distance (err_word err) a <= edit_distance (err_word err) b)
    (ranked err) ∧
  ranked err ≡ₚ default [] (err_suggestions err) ∧
  forall d,
    filter (fun w => edit_distance (err_word err) w = d) (ranked err)
    = filter (fun w => edit_distance (err_word err) w = d)
             (default [] (err_suggestions err)).
Proof.
  split; [apply (sorted_sorted (fun w => edit_distance (err_word err) w))|].
  split; [apply sorted_Permutation|].
  intros d. apply (sorted_stable (fun w => edit_distance (err_word err) w)).
Qed.

End RankerClaims.

(** ** The tokenizer *)

Module TokenizerFacts.
Import Chars Tokenizer.

Lemma is_az_word c : is_az c = true -> is_word c = true.
Proof.
  unfold is_az, is_word.
  destruct (in_range 97 122 c); [|done]. intros _.
  by rewrite !orb_true_r.
Qed.

Lemma append_empty s : "" +:+ s = s.
Proof. reflexivity. Qed.

Lemma append_cons c s1 s2 : String c s1 +:+ s2 = String c (s1 +:+ s2).
Proof. reflexivity. Qed.

Lemma append_nil_r s : s +:+ "" = s.
Proof.
  induction s as [|c s IH]; [done|]. by rewrite append_cons, IH.
Qed.

Lemma append_assoc s1 s2 s3 : (s1 +:+ s2) +:+ s3 = s1 +:+ (s2 +:+ s3).
Proof.
  induction s1 as [|c s1 IH]; [done|]. by rewrite !append_cons, IH.
Qed.

Lemma span_append p s : fst (span p s) +:+ snd (span p s) = s.
Proof.
  induction s as [|c s IH]; simpl; [done|].
  destruct (p c); simpl; [|done]. by rewrite append_cons, IH.
Qed.

Lemma span_stops p s : from_option p false (first_char (snd (span p s))) = false.
Proof.
  induction s as [|c s IH]; simpl; [done|].
  destruct (p c) eqn:E; simpl; [done|]. by rewrite E.
Qed.

Lemma span_all p s : string_forallb p (fst (span p s)) = true.
Proof.
  induction s as [|c s IH]; simpl; [done|].
  destruct (p c) eqn:E; simpl; [|done]. by rewrite E, IH.
Qed.

Lemma runs_from_span p cur s :
  runs_from p cur s
  = flush (cur +:+ fst (span p s)) ++ runs_from p "" (snd (span p s)).
Proof.
  revert cur. induction s as [|c s IH]; intros cur; simpl.
  - by rewrite append_nil_r, app_nil_r.
  - destruct (p c) eqn:E; simpl.
    + by rewrite IH, append_assoc.
    + by rewrite E, append_nil_r.
Qed.

Lemma az_plus_spec s m r :
  In (m, r) (az_plus s) ->
  s = m +:+ r ∧ m ≠ "" ∧ string_forallb is_az m = true.
Proof.
  revert m r. induction s as [|c s IH]; intros m r; simpl; [tauto|].
  destruct (is_az c) eqn:Hc; [|simpl; tauto].
  rewrite in_app_iff, in_map_iff. intros [[[m' r'] [Heq Hin]]|[Heq|[]]].
  - simpl in Heq. injection Heq as <- <-.
    apply IH in Hin as (-> & _ & Hall). simpl. by rewrite Hc, Hall.
  - injection Heq as <- <-. simpl. by rewrite Hc.
Qed.

Lemma az_plus_complete w r :
  w ≠ "" -> string_forallb is_az w = true -> In (w, r) (az_plus (w +:+ r)).
Proof.
  induction w as [|c w IH]; [done|]. intros _. simpl.
  intros [Hc Hw]%andb_true_iff. rewrite Hc.
  apply in_app_iff. destruct w as [|c' w].
  - right. by left.
  - left. apply in_map_iff. exists (String c' w, r). split; [done|].
    by apply IH.
Qed.

Lemma last_char_forall p m :
  m ≠ "" -> string_forallb p m = true -> from_option p false (last_char m) = true.
Proof.
  induction m as [|c m IH]; [done|]. intros _. simpl.
  intros [Hc Hm]%andb_true_iff. destruct m; [done|]. by apply IH.
Qed.

Lemma first_char_append m r : m ≠ "" -> first_char (m +:+ r) = first_char m.
Proof. by destruct m. Qed.

Lemma first_char_forall p m :
  m ≠ "" -> string_forallb p m = true -> from_option p false (first_char m) = true.
Proof. destruct m; [done|]. simpl. by intros _ [? _]%andb_true_iff. Qed.

Lemma string_forallb_impl (p q : ascii -> bool) m :
  (forall c, p c = true -> q c = true) ->
  string_forallb p m = true -> string_forallb q m = true.
Proof.
  intros Hpq. induction m as [|c m IH]; simpl; [done|].
  intros [Hc Hm]%andb_true_iff. by rewrite (Hpq _ Hc), IH.
Qed.

Lemma span_stop p r :
  from_option p false (first_char r) = false -> span p r = ("", r).
Proof. destruct r as [|c r]; simpl; [done|]. by intros ->. Qed.

Lemma span_app_stop p m r :
  string_forallb p m = true -> from_option p false (first_char r) = false ->
  span p (m +:+ r) = (m, r).
Proof.
  intros Hm Hr. induction m as [|c m IH]; simpl.
  - by apply span_stop.
  - simpl in Hm. apply andb_true_iff in Hm as [Hc Hm].
    by rewrite Hc, IH.
Qed.

Lemma word_boundary_true_l before after :
  word_before before = true -> 
  word_boundary before after = negb (word_before after).
Proof. unfold word_boundary, word_before. by intros ->. Qed.

Lemma word_boundary_false_l before after :
  word_before before = false -> 
  word_boundary before after = word_before after.
Proof. unfold word_boundary, word_before. by intros ->. Qed.

(** A match at the cursor is a maximal run of word characters, made of
    letters a-z only, that starts at a word boundary. *)
Lemma match_here_Some before s m r :
  match_here before s = Some (m, r) ->
  s = m +:+ r ∧ m ≠ "" ∧ string_forallb is_az m = true ∧
  word_before before = false ∧ word_before (first_char r) = false.
Proof.
  unfold match_here. destruct (word_boundary _ _) eqn:Hb; [|done].
  intros [Hin Hf]%find_some. simpl in Hf.
  apply az_plus_spec in Hin as (-> & Hne & Haz).
  pose proof (string_forallb_impl _ _ _ is_az_word Haz) as Hw.
  repeat split; try done.
  - rewrite first_char_append in Hb by done.
    destruct (word_before before) eqn:E; [|done].
    rewrite word_boundary_true_l in Hb by done.
    unfold word_before in Hb. by rewrite first_char_forall in Hb.
  - rewrite word_boundary_true_l in Hf by (by apply last_char_forall).
    by apply negb_true_iff.
Qed.

(** No match at the start of a run of word characters: the run has a
    character outside a-z. *)
Lemma match_here_None_run before c s :
  match_here before (String c s) = None ->
  word_before before = false -> is_word c = true ->
  string_forallb is_az (fst (span is_word (String c s))) = false.
Proof.
  intros Hnone Hb Hc.
  destruct (string_forallb _ _) eqn:Haz; [exfalso|done].
  pose proof (span_append is_word (String c s)) as Happ.
  pose proof (span_stops is_word (String c s)) as Hstop.
  assert (Hne : fst (span is_word (String c s)) ≠ "") by (simpl; by rewrite Hc).
  assert (Hfirst : word_before (first_char (String c s)) = true) by done.
  remember (String c s) as s0 eqn:Hs0. clear Hs0.
  unfold match_here in Hnone.
  rewrite word_boundary_false_l, Hfirst in Hnone by done.
  assert (Hin : In (fst (span is_word s0), snd (span is_word s0)) (az_plus s0)).
  { rewrite <- Happ at 3. by apply az_plus_complete. }
  apply (find_none _ _ Hnone) in Hin. clear Hnone. rename Hin into Hnone.
  simpl in Hnone.
  rewrite word_boundary_true_l in Hnone.
  - apply negb_false_iff in Hnone. unfold word_before in Hnone. congruence.
  - apply last_char_forall; [done|].
    by apply (string_forallb_impl _ _ _ is_az_word).
Qed.

(** The scan, from any cursor: inside a word (a word character in front
    of the cursor) it first leaves the word; then the matches are the
    runs of word characters that consist of letters a-z. *)
Lemma findall_from_runs before s :
  findall_from before s
  = filter (fun w => string_forallb is_az w)
      (runs is_word (if word_before before then snd (span is_word s) else s)).
Proof.
  funelim (findall_from before s); clear Heqcall.
  - clear H0. apply match_here_Some in Hm as (-> & Hne & Haz & Hb & Hr).
    pose proof (string_forallb_impl _ _ _ is_az_word Haz) as Hw.
    rewrite H, Hb. unfold word_before at 1.
    rewrite last_char_forall by done.
    rewrite span_stop by done. cbn [snd].
    unfold runs at 2. rewrite runs_from_span, span_app_stop by done.
    cbn [fst snd]. rewrite append_empty.
    destruct m; [done|]. simpl. rewrite filter_cons_True; [done|].
    by apply Is_true_true.
  - by destruct (word_before before).
  - clear H0. rewrite H. clear H. unfold word_before at 1. cbn [from_option].
    destruct (word_before before) eqn:Hb, (is_word c) eqn:Hc.
    + simpl. by rewrite Hc.
    + simpl. rewrite Hc. cbn [snd]. unfold runs. simpl. by rewrite Hc.
    + unfold runs at 2. rewrite runs_from_span. rewrite append_empty.
      pose proof (match_here_None_run _ _ _ e Hb Hc) as Hno.
      simpl in Hno |- *. rewrite Hc in Hno |- *. cbn [fst snd] in Hno |- *.
      cbn [flush app]. rewrite filter_cons_False; [done|].
      by apply Is_true_false_2.
    + unfold runs. simpl. by rewrite Hc.
Qed.

End TokenizerFacts.

Module TokenizerClaims.
Import Chars Tokenizer TokenizerFacts Claimed.

Lemma findall_from_nonempty before s :
  Forall (fun w => w ≠ "") (findall_from before s).
Proof.
  funelim (findall_from before s); clear Heqcall; [|done..].
  clear H0. apply match_here_Some in Hm as (_ & Hne & _).
  by apply Forall_cons.
Qed.

(** C2, counterexample: in "abc123" the letters touch a digit, so the
    pattern finds no word boundary after "abc" and nothing is
    extracted. *)
Lemma C2_abc123_yields_no_token : ~ tokens_are_alphabetic_runs "abc123".
Proof. unfold tokens_are_alphabetic_runs. by vm_compute. Qed.

(** C2, amended: the tokens are exactly the maximal runs of word
    characters (letters, digits, underscore) of the lower-cased text
    that consist of the letters a-z only; every token is non-empty and
    holds no digit, punctuation or symbol.  A run of letters that
    touches a digit or an underscore is not extracted. *)
Theorem C2_tokens_are_az_word_runs (text : string) :
  tokenize text
  = filter (fun w => string_forallb is_az w) (runs is_word (lower text)) ∧
  Forall (fun w => w ≠ "" ∧ string_forallb is_az w = true) (tokenize text).
Proof.
  assert (Heq : tokenize text
    = filter (fun w => string_forallb is_az w) (runs is_word (lower text)))
    by apply (findall_from_runs None).
  split; [done|].
  apply Forall_forall. intros w Hw. split.
  - pose proof (findall_from_nonempty None (lower text)) as Hne.
    rewrite Forall_forall in Hne. by apply Hne.
  - rewrite Heq in Hw. apply list_elem_of_filter in Hw as [Hw _].
    by apply Is_true_true.
Qed.

End TokenizerClaims.

(** ** Lemmatization and spelling detection *)

Module DetectorClaims.
Import Chars Tokenizer TokenizerFacts Tables Grammar Ranker Detector.

Lemma lower_not_alpha c : is_alpha c = false -> is_az (char_lower c) = false.
Proof. destruct c as [[] [] [] [] [] [] [] []]; by vm_compute. Qed.

Lemma lower_no_letters text :
  string_forallb (fun c => negb (is_alpha c)) text = true ->
  string_forallb (fun c => negb (is_az c)) (lower text) = true.
Proof.
  induction text as [|c text IH]; simpl; [done|].
  intros [Hc Htext]%andb_true_iff. apply negb_true_iff in Hc.
  by rewrite (lower_not_alpha _ Hc), IH.
Qed.

Lemma no_letters_append m r :
  string_forallb (fun c => negb (is_az c)) (m +:+ r) = true ->
  string_forallb is_az m = true -> m = "".
Proof.
  destruct m as [|c m]; [done|]. simpl.
  intros [Hc _]%andb_true_iff [Hc' _]%andb_true_iff.
  rewrite Hc' in Hc. done.
Qed.

(** Without a letter a-z the pattern matches nowhere. *)
Lemma findall_from_no_letters before s :
  string_forallb (fun c => negb (is_az c)) s = true -> findall_from before s = [].
Proof.
  funelim (findall_from before s); clear Heqcall; intros Hs.
  - clear H0. apply match_here_Some in Hm as (-> & Hne & Haz & _).
    by apply no_letters_append in Hs.
  - done.
  - apply H. simpl in Hs. by apply andb_true_iff in Hs as [_ ?].
Qed.

Lemma table_words_lower w :
  w ∈ FUNCTION_WORDS ∨ w ∈ AUX_VERBS -> lower w = w.
Proof.
  intros H. apply elem_of_union in H. revert w H.
  change (set_Forall (fun w => lower w = w) (FUNCTION_WORDS ∪ AUX_VERBS)).
  apply (bool_decide_unpack _). by vm_compute.
Qed.

(** Line 101, for any list of errors: a display token whose lower-case
    form is a function word is never rendered as a spelling error. *)
Lemma function_word_never_red errors display_version grammar_indices word :
  lower word ∈ FUNCTION_WORDS ->
  (Red, word) ∉ highlighted_text errors display_version grammar_indices.
Proof.
  intros Hfw Hred.
  apply elem_of_lookup_imap in Hred as (k & word' & Heq & _).
  cbv zeta in Heq. repeat case_decide; try done.
  injection Heq as <-. tauto.
Qed.

(** C6: a function word or auxiliary verb is never among the flagged
    words, whatever the text and the vocabulary, and so it is never
    highlighted as a spelling error. *)
Theorem C6_function_words_and_auxiliaries_never_flagged
    (tag_of : list string -> nat -> string)
    (lemmatize : string -> string -> string)
    (candidates : gset string -> string -> list string)
    (vocab : gset string) (text : string) (w : string)
    (Hw : w ∈ FUNCTION_WORDS ∨ w ∈ AUX_VERBS) :
  (w ∉ spelling_words (detect_errors tag_of lemmatize candidates vocab text)) ∧
  forall display_version grammar_indices,
    (Red, w) ∉ highlighted_text
                 (detect_errors tag_of lemmatize candidates vocab text)
                 display_version grammar_indices.
Proof.
  assert (Hnot : w ∉ spelling_words
                       (detect_errors tag_of lemmatize candidates vocab text)).
  { unfold spelling_words, detect_errors. rewrite elem_of_list_to_set.
    rewrite <- list_fmap_compose. intros (x & -> & Hin)%list_elem_of_fmap.
    simpl in Hw. unfold flagged in Hin.
    apply elem_of_remove_dups, list_elem_of_filter in Hin as [(_ & Hf & Ha) _].
    tauto. }
  split; [done|]. intros display_version grammar_indices Hred.
  apply elem_of_lookup_imap in Hred as (k & word & Heq & _).
  cbv zeta in Heq. repeat case_decide; try done.
  injection Heq as <-. rewrite table_words_lower in * by done. tauto.
Qed.

Lemma C6_function_words_and_auxiliaries_never_flagged_witness :
  let tag_of := fun (_ : list string) (_ : nat) => "NN" in
  let lemmatize := fun (word _ : string) => word in
  let candidates := fun (_ : gset string) (_ : string) => @nil string in
  spelling_words (detect_errors tag_of lemmatize candidates {[ "cat" ]}
                    "The cat is on teh mat")
  = {[ "teh"; "mat" ]} ∧
  "the" ∉ spelling_words (detect_errors tag_of lemmatize candidates {[ "cat" ]}
                            "The cat is on teh mat").
Proof.
  split; [by vm_compute|].
  apply (C6_function_words_and_auxiliaries_never_flagged
           (fun _ _ => "NN") (fun word _ => word) (fun _ _ => [])
           {[ "cat" ]} "The cat is on teh mat" "the").
  left. by vm_compute.
Defined.

(** C8: a text without alphabetic characters (the empty text, white
    space only) gives the empty lemma sequence, and the display grammar
    on it gives the empty display sequence with no corrected position;
    neither step raises. *)
Theorem C8_text_without_letters
    (tag_of : list string -> nat -> string)
    (lemmatize : string -> string -> string) (text : string)
    (Htext : string_forallb (fun c => negb (is_alpha c)) text = true) :
  preprocess_user_input tag_of lemmatize text = [] ∧
  apply_display_grammar (preprocess_user_input tag_of lemmatize text)
  = Some ([], []).
Proof.
  assert (Hpre : preprocess_user_input tag_of lemmatize text = []).
  { unfold preprocess_user_input, findall.
    by rewrite findall_from_no_letters by (by apply lower_no_letters). }
  by rewrite Hpre.
Qed.

Lemma C8_text_without_letters_witness :
  let tag_of := fun (_ : list string) (_ : nat) => "NN" in
  let lemmatize := fun (word _ : string) => word in
  (preprocess_user_input tag_of lemmatize "" = [] ∧
   apply_display_grammar (preprocess_user_input tag_of lemmatize "")
   = Some ([], [])) ∧
  (preprocess_user_input tag_of lemmatize "  42 %  " = [] ∧
   apply_display_grammar (preprocess_user_input tag_of lemmatize "  42 %  ")
   = Some ([], [])).
Proof.
  split.
  - apply (C8_text_without_letters (fun _ _ => "NN") (fun word _ => word) "").
    reflexivity.
  - apply (C8_text_without_letters (fun _ _ => "NN") (fun word _ => word)
             "  42 %  ").
    reflexivity.
Defined.

End DetectorClaims.

(** * Further properties of the code *)

(** ** The rules of the display grammar, position by position *)

Module GrammarRules.
Import Tables TableFacts Grammar GrammarFacts.

(** Rule A along the pass: [prev :: d] holds, at index [k], the token
    in front of position [k]. *)
Lemma walk_rule_A prev pos toks k p tok ing :
  (prev :: fst (walk prev pos toks)) !! k = Some p -> p ∈ BE_FORMS ->
  toks !! k = Some tok -> BASE_VERB_TO_ING !! tok = Some ing ->
  fst (walk prev pos toks) !! k = Some ing ∧ pos + k ∈ snd (walk prev pos toks).
Proof.
  revert prev pos toks k p tok ing.
  apply (walk_cases (fun prev pos toks r => forall k p tok ing,
           (prev :: fst r) !! k = Some p -> p ∈ BE_FORMS ->
           toks !! k = Some tok -> BASE_VERB_TO_ING !! tok = Some ing ->
           fst r !! k = Some ing ∧ pos + k ∈ snd r)); cbn [fst snd].
  - intros prev pos k p tok ing _ _ Htok. by destruct k.
  - intros prev pos tok0 rest ing0 Hbe Hing0 IH [|k] p tok ing Hp Hpbe Htok Hing;
      simpl in Hp, Htok.
    + injection Htok as ->. rewrite Nat.add_0_r. split; [|apply list_elem_of_here].
      simpl. congruence.
    + destruct (IH k p tok ing Hp Hpbe Htok Hing) as [Hd Hg]. split; [done|].
      rewrite Nat.add_succ_r. by apply list_elem_of_further.
  - intros prev pos tok0 next_tok rest Hhave -> IH [|[|k]] p tok ing Hp Hpbe Htok Hing;
      simpl in Hp, Htok.
    + injection Hp as ->. by apply be_not_have in Hpbe.
    + injection Hp as <-. exfalso. revert Hpbe. apply (bool_decide_unpack _).
      by vm_compute.
    + destruct (IH k p tok ing Hp Hpbe Htok Hing) as [Hd Hg]. split; [done|].
      rewrite !Nat.add_succ_r. by apply list_elem_of_further.
  - intros prev pos tok0 rest Hhave _ IH [|k] p tok ing Hp Hpbe Htok Hing;
      simpl in Hp, Htok.
    + injection Hp as ->. by apply be_not_have in Hpbe.
    + destruct (IH k p tok ing Hp Hpbe Htok Hing) as [Hd Hg]. split; [done|].
      rewrite Nat.add_succ_r. by apply list_elem_of_further.
  - intros prev pos tok0 rest Hno Hhave IH [|k] p tok ing Hp Hpbe Htok Hing;
      simpl in Hp, Htok.
    + injection Hp as ->. injection Htok as ->. exfalso. apply Hno. eauto.
    + destruct (IH k p tok ing Hp Hpbe Htok Hing) as [Hd Hg]. split; [done|].
      by rewrite Nat.add_succ_r.
Qed.

Lemma not_not_have : "not" ∉ HAVE_FORMS.
Proof. apply (bool_decide_unpack _). by vm_compute. Qed.

Lemma not_not_be : "not" ∉ BE_FORMS.
Proof. apply (bool_decide_unpack _). by vm_compute. Qed.

(** Rule B without negation along the pass. *)
Lemma walk_rule_B prev pos toks k p tok :
  (prev :: fst (walk prev pos toks)) !! k = Some p -> p ∈ HAVE_FORMS ->
  toks !! k = Some tok -> tok <> "not" \/ toks !! S k = None ->
  fst (walk prev pos toks) !! k = Some (past_of tok) ∧
  pos + k ∈ snd (walk prev pos toks).
Proof.
  revert prev pos toks k p tok.
  apply (walk_cases (fun prev pos toks r => forall k p tok,
           (prev :: fst r) !! k = Some p -> p ∈ HAVE_FORMS ->
           toks !! k = Some tok -> tok <> "not" \/ toks !! S k = None ->
           fst r !! k = Some (past_of tok) ∧ pos + k ∈ snd r)); cbn [fst snd].
  - intros prev pos k p tok _ _ Htok. by destruct k.
  - intros prev pos tok0 rest ing0 Hbe Hing0 IH [|k] p tok Hp Hph Htok Hcase;
      simpl in Hp, Htok, Hcase.
    + injection Hp as ->. by apply be_not_have in Hbe.
    + destruct (IH k p tok Hp Hph Htok Hcase) as [Hd Hg]. split; [done|].
      rewrite Nat.add_succ_r. by apply list_elem_of_further.
  - intros prev pos tok0 next_tok rest Hhave -> IH [|[|k]] p tok Hp Hph Htok Hcase;
      simpl in Hp, Htok, Hcase.
    + injection Htok as <-. by destruct Hcase.
    + injection Hp as <-. by apply not_not_have in Hph.
    + destruct (IH k p tok Hp Hph Htok Hcase) as [Hd Hg]. split; [done|].
      rewrite !Nat.add_succ_r. by apply list_elem_of_further.
  - intros prev pos tok0 rest Hhave _ IH [|k] p tok Hp Hph Htok Hcase;
      simpl in Hp, Htok, Hcase.
    + injection Htok as ->. rewrite Nat.add_0_r.
      split; [done|apply list_elem_of_here].
    + destruct (IH k p tok Hp Hph Htok Hcase) as [Hd Hg]. split; [done|].
      rewrite Nat.add_succ_r. by apply list_elem_of_further.
  - intros prev pos tok0 rest Hno Hhave IH [|k] p tok Hp Hph Htok Hcase;
      simpl in Hp, Htok, Hcase.
    + by injection Hp as ->.
    + destruct (IH k p tok Hp Hph Htok Hcase) as [Hd Hg]. split; [done|].
      by rewrite Nat.add_succ_r.
Qed.

(** Rule B with negation along the pass. *)
Lemma walk_rule_B_not prev pos toks k p next_tok :
  (prev :: fst (walk prev pos toks)) !! k = Some p -> p ∈ HAVE_FORMS ->
  toks !! k = Some "not" -> toks !! S k = Some next_tok ->
  fst (walk prev pos toks) !! k = Some "not" ∧
  fst (walk prev pos toks) !! S k = Some (past_of next_tok) ∧
  pos + S k ∈ snd (walk prev pos toks) ∧
  pos + k ∉ snd (walk prev pos toks).
Proof.
  revert prev pos toks k p next_tok.
  apply (walk_cases (fun prev pos toks r => forall k p next_tok,
           (prev :: fst r) !! k = Some p -> p ∈ HAVE_FORMS ->
           toks !! k = Some "not" -> toks !! S k = Some next_tok ->
           fst r !! k = Some "not" ∧ fst r !! S k = Some (past_of next_tok) ∧
           pos + S k ∈ snd r ∧ pos + k ∉ snd r)); cbn [fst snd].
  - intros prev pos k p next_tok _ _ Htok. by destruct k.
  - intros prev pos tok0 rest ing0 Hbe Hing0 IH [|k] p nt Hp Hph Htok Hnext;
      simpl in Hp, Htok, Hnext.
    + injection Hp as ->. by apply be_not_have in Hbe.
    + destruct (IH k p nt Hp Hph Htok Hnext) as (Hd & Hd' & Hg & Hg').
      split; [done|]. split; [done|]. rewrite !Nat.add_succ_r in *. split.
      * by apply list_elem_of_further.
      * intros [?|?]%elem_of_cons; [lia|done].
  - intros prev pos tok0 nt0 rest Hhave -> IH [|[|k]] p nt Hp Hph Htok Hnext;
      simpl in Hp, Htok, Hnext.
    + injection Hnext as ->. rewrite Nat.add_0_r, Nat.add_1_r.
      split; [done|]. split; [done|]. split; [apply list_elem_of_here|].
      intros [?|Hin]%elem_of_cons; [lia|].
      pose proof (walk_indices_from (past_of nt) (S (S pos)) rest) as Hfrom.
      rewrite Forall_forall in Hfrom. apply Hfrom in Hin. lia.
    + injection Hp as <-. by apply not_not_have in Hph.
    + destruct (IH k p nt Hp Hph Htok Hnext) as (Hd & Hd' & Hg & Hg').
      split; [done|]. split; [done|]. rewrite !Nat.add_succ_r in *. split.
      * by apply list_elem_of_further.
      * intros [?|?]%elem_of_cons; [lia|done].
  - intros prev pos tok0 rest Hhave Hcase0 IH [|k] p nt Hp Hph Htok Hnext;
      simpl in Hp, Htok, Hnext.
    + injection Htok as ->. destruct Hcase0 as [?| ->]; done.
    + destruct (IH k p nt Hp Hph Htok Hnext) as (Hd & Hd' & Hg & Hg').
      split; [done|]. split; [done|]. rewrite !Nat.add_succ_r in *. split.
      * by apply list_elem_of_further.
      * intros [?|?]%elem_of_cons; [lia|done].
  - intros prev pos tok0 rest Hno Hhave IH [|k] p nt Hp Hph Htok Hnext;
      simpl in Hp, Htok, Hnext.
    + by injection Hp as ->.
    + destruct (IH k p nt Hp Hph Htok Hnext) as (Hd & Hd' & Hg & Hg').
      split; [done|]. split; [done|]. by rewrite !Nat.add_succ_r in *.
Qed.

Lemma apply_display_grammar_inv tokens d g :
  apply_display_grammar tokens = Some (d, g) ->
  d = fst (walk "" 0 tokens) ∧ g = snd (walk "" 0 tokens).
Proof. rewrite apply_display_grammar_walk. intros [= H]. by rewrite H. Qed.

(** X1 (Rule A): where the display token in front of a position is a
    form of "be" and the lemma at the position has a present participle
    in the table, the display token is that participle and the position
    is recorded. *)
Theorem rule_A_rewrites tokens d g k p tok ing
    (Hrun : apply_display_grammar tokens = Some (d, g))
    (Hprev : ("" :: d) !! k = Some p) (Hbe : p ∈ BE_FORMS)
    (Htok : tokens !! k = Some tok)
    (Hing : BASE_VERB_TO_ING !! tok = Some ing) :
  d !! k = Some ing ∧ k ∈ g.
Proof.
  apply apply_display_grammar_inv in Hrun as [-> ->].
  by apply (walk_rule_A "" 0 tokens k p tok ing).
Qed.

Lemma rule_A_rewrites_witness :
  apply_display_grammar ["he"; "was"; "go"; "home"]
  = Some (["he"; "was"; "going"; "home"], [2]) ∧
  (["he"; "was"; "going"; "home"] !! 2 = Some "going" ∧ 2 ∈ [2]).
Proof.
  split; [reflexivity|].
  apply (rule_A_rewrites ["he"; "was"; "go"; "home"] _ _ 2 "was" "go" "going").
  - reflexivity.
  - reflexivity.
  - by vm_compute.
  - reflexivity.
  - by vm_compute.
Defined.

(** X2 (Rule B): where the display token in front of a position is a
    form of "have" and the lemma at the position is not a "not" with a
    token after it, the display token is the past participle of the
    lemma (the lemma itself when the table has none) and the position
    is recorded. *)
Theorem rule_B_rewrites tokens d g k p tok
    (Hrun : apply_display_grammar tokens = Some (d, g))
    (Hprev : ("" :: d) !! k = Some p) (Hhave : p ∈ HAVE_FORMS)
    (Htok : tokens !! k = Some tok)
    (Hcase : tok <> "not" \/ tokens !! S k = None) :
  d !! k = Some (past_of tok) ∧ k ∈ g.
Proof.
  apply apply_display_grammar_inv in Hrun as [-> ->].
  by apply (walk_rule_B "" 0 tokens k p tok).
Qed.

Lemma rule_B_rewrites_witness :
  apply_display_grammar ["she"; "has"; "go"; "away"]
  = Some (["she"; "has"; "gone"; "away"], [2]) ∧
  (["she"; "has"; "gone"; "away"] !! 2 = Some (past_of "go") ∧ 2 ∈ [2]).
Proof.
  split; [reflexivity|].
  apply (rule_B_rewrites ["she"; "has"; "go"; "away"] _ _ 2 "has" "go").
  - reflexivity.
  - reflexivity.
  - by vm_compute.
  - reflexivity.
  - by left.
Defined.

(** X3 (Rule B, negated): where the display token in front of a "not"
    is a form of "have" and a token follows, the "not" is kept and not
    recorded, and the token after it becomes its past participle and is
    recorded. *)
Theorem rule_B_skips_not tokens d g k p next_tok
    (Hrun : apply_display_grammar tokens = Some (d, g))
    (Hprev : ("" :: d) !! k = Some p) (Hhave : p ∈ HAVE_FORMS)
    (Htok : tokens !! k = Some "not")
    (Hnext : tokens !! S k = Some next_tok) :
  d !! k = Some "not" ∧ d !! S k = Some (past_of next_tok) ∧
  S k ∈ g ∧ k ∉ g.
Proof.
  apply apply_display_grammar_inv in Hrun as [-> ->].
  by apply (walk_rule_B_not "" 0 tokens k p next_tok).
Qed.

Lemma rule_B_skips_not_witness :
  apply_display_grammar ["it"; "has"; "not"; "move"]
  = Some (["it"; "has"; "not"; "moved"], [3]) ∧
  (["it"; "has"; "not"; "moved"] !! 2 = Some "not" ∧
   ["it"; "has"; "not"; "moved"] !! 3 = Some (past_of "move") ∧
   3 ∈ [3] ∧ 2 ∉ [3]).
Proof.
  split; [reflexivity|].
  apply (rule_B_skips_not ["it"; "has"; "not"; "move"] _ _ 2 "has" "move").
  - reflexivity.
  - reflexivity.
  - by vm_compute.
  - reflexivity.
  - reflexivity.
Defined.

End GrammarRules.

(** ** The shape of the output of the display grammar *)

Module GrammarShape.
Import Tables TableFacts Grammar GrammarFacts GrammarReasons.

Lemma recorded_because_shift prev x tok0 rest d k :
  recorded_because x rest d k ->
  recorded_because prev (tok0 :: rest) (x :: d) (S k).
Proof.
  intros (tok & out & Htok & Hout & Hwhy). exists tok, out.
  split; [done|]. split; [done|].
  destruct Hwhy as [(p & ? & ? & ?)|[(p & ? & ? & ?)|(i & p & -> & ? & ? & ? & ? & ?)]].
  - left. by exists p.
  - right. left. by exists p.
  - right. right. by exists (S i), p.
Qed.

Lemma walk_recorded_because prev pos toks :
  Forall (fun j => exists k, j = pos + k ∧
                     recorded_because prev toks (fst (walk prev pos toks)) k)
         (snd (walk prev pos toks)).
Proof.
  revert prev pos toks.
  apply (walk_cases (fun prev pos toks r =>
           Forall (fun j => exists k, j = pos + k ∧
                              recorded_because prev toks (fst r) k) (snd r)));
    cbn [fst snd].
  - intros. apply Forall_nil_2.
  - intros prev pos tok rest ing Hbe Hing IH. apply Forall_cons. split.
    + exists 0. split; [lia|]. exists tok, ing. split; [done|]. split; [done|].
      left. by exists prev.
    + eapply Forall_impl; [exact IH|]. intros j (k & -> & Hk).
      exists (S k). split; [lia|]. by apply recorded_because_shift.
  - intros prev pos tok next_tok rest Hhave -> IH. apply Forall_cons. split.
    + exists 1. split; [lia|]. exists next_tok, (past_of next_tok).
      split; [done|]. split; [done|]. right. right. by exists 0, prev.
    + eapply Forall_impl; [exact IH|]. intros j (k & -> & Hk).
      exists (S (S k)). split; [lia|].
      by apply recorded_because_shift, (recorded_because_shift "not").
  - intros prev pos tok rest Hhave _ IH. apply Forall_cons. split.
    + exists 0. split; [lia|]. exists tok, (past_of tok).
      split; [done|]. split; [done|]. right. left. by exists prev.
    + eapply Forall_impl; [exact IH|]. intros j (k & -> & Hk).
      exists (S k). split; [lia|]. by apply recorded_because_shift.
  - intros prev pos tok rest _ _ IH.
    eapply Forall_impl; [exact IH|]. intros j (k & -> & Hk).
    exists (S k). split; [lia|]. by apply recorded_because_shift.
Qed.

Lemma past_of_form tok : form_of tok (past_of tok).
Proof.
  unfold form_of, past_of. destruct (IRREGULAR_PAST !! tok); simpl; eauto.
Qed.

Lemma walk_forms prev pos toks :
  Forall2 form_of toks (fst (walk prev pos toks)).
Proof.
  revert prev pos toks.
  apply (walk_cases (fun _ _ toks r => Forall2 form_of toks (fst r)));
    cbn [fst snd]; intros; repeat (apply Forall2_cons; split);
    try done; try apply past_of_form; unfold form_of; eauto.
Qed.

(** X4: every recorded position holds the participle of its lemma and
    stands behind a form of "be", a form of "have", or a form of "have"
    followed by "not"; the first position is never recorded. *)
Theorem recorded_positions_follow_an_auxiliary (tokens : list string) :
  exists d g,
    apply_display_grammar tokens = Some (d, g) ∧
    Forall (fun j => 0 < j ∧ recorded_because "" tokens d j) g.
Proof.
  exists (fst (walk "" 0 tokens)), (snd (walk "" 0 tokens)).
  rewrite apply_display_grammar_walk, <- surjective_pairing. split; [done|].
  eapply Forall_impl; [apply walk_recorded_because|].
  intros j (k & -> & Hk). simpl. split; [|done].
  destruct k; [exfalso|lia].
  destruct Hk as (tok & out & _ & _ &
    [(p & [= <-] & Hp & _)|[(p & [= <-] & Hp & _)|(i & p & ? & _)]]);
    [revert Hp..|done]; apply (bool_decide_unpack _); by vm_compute.
Qed.

(** X5: every display token is the lemma of its position, its present
    participle or its irregular past participle from the tables; the
    pass never moves a token and never emits anything else. *)
Theorem display_tokens_are_forms_of_the_lemmas (tokens : list string) :
  exists d g,
    apply_display_grammar tokens = Some (d, g) ∧ Forall2 form_of tokens d.
Proof.
  exists (fst (walk "" 0 tokens)), (snd (walk "" 0 tokens)).
  rewrite apply_display_grammar_walk, <- surjective_pairing.
  split; [done|apply walk_forms].
Qed.

End GrammarShape.

(** ** Texts without auxiliaries, prefixes and concatenation *)

Module GrammarCompose.
Import Tables TableFacts Grammar GrammarFacts GrammarRules.

Lemma be_is_aux p : p ∈ BE_FORMS -> p ∈ AUX_VERBS.
Proof.
  revert p. change (set_Forall (fun x => x ∈ AUX_VERBS) BE_FORMS).
  apply (bool_decide_unpack _). by vm_compute.
Qed.

Lemma have_is_aux p : p ∈ HAVE_FORMS -> p ∈ AUX_VERBS.
Proof.
  revert p. change (set_Forall (fun x => x ∈ AUX_VERBS) HAVE_FORMS).
  apply (bool_decide_unpack _). by vm_compute.
Qed.

Lemma empty_not_aux : "" ∉ AUX_VERBS.
Proof. apply (bool_decide_unpack _). by vm_compute. Qed.

Lemma walk_no_aux toks : forall prev pos,
  prev ∉ AUX_VERBS -> Forall (fun t => t ∉ AUX_VERBS) toks ->
  walk prev pos toks = (toks, []).
Proof.
  induction toks as [|tok rest IH]; intros prev pos Hprev Htoks; [done|].
  apply Forall_cons in Htoks as [Htok Hrest]. cbn [walk].
  rewrite decide_False by (intros [?%be_is_aux _]; done).
  rewrite decide_False by (intros ?%have_is_aux; done).
  by rewrite IH.
Qed.

(** X6: a lemma sequence without any of the auxiliary verbs comes back
    as it is, with no position recorded. *)
Theorem no_auxiliary_no_change (tokens : list string)
    (Hnone : Forall (fun t => t ∉ AUX_VERBS) tokens) :
  apply_display_grammar tokens = Some (tokens, []).
Proof.
  rewrite apply_display_grammar_walk.
  by rewrite walk_no_aux by (done || apply empty_not_aux).
Qed.

Lemma no_auxiliary_no_change_witness :
  apply_display_grammar ["bitcoin"; "rise"; "this"; "year"]
  = Some (["bitcoin"; "rise"; "this"; "year"], []).
Proof.
  apply (no_auxiliary_no_change ["bitcoin"; "rise"; "this"; "year"]).
  repeat (apply Forall_cons; split; [apply (bool_decide_unpack _); by vm_compute|]).
  apply Forall_nil_2.
Defined.

Lemma walk_prefix prev pos pre :
  forall suf pos', exists rest,
    fst (walk prev pos' (pre ++ suf)) = fst (walk prev pos pre) ++ rest.
Proof.
  revert prev pos pre.
  apply (walk_cases (fun prev _ pre r => forall suf pos', exists rest,
           fst (walk prev pos' (pre ++ suf)) = fst r ++ rest)); cbn [fst snd].
  - intros. by eexists.
  - intros prev pos tok rest ing Hbe Hing IH suf pos'.
    rewrite <- app_comm_cons. cbn [walk].
    rewrite decide_True by eauto. rewrite Hing. cbn [default id fst].
    destruct (IH suf (S pos')) as [r ->]. by exists r.
  - intros prev pos tok next_tok rest Hhave -> IH suf pos'.
    rewrite <- !app_comm_cons. cbn [walk].
    rewrite decide_False by (intros [Hbe _]; by apply be_not_have in Hbe).
    rewrite decide_True by done.
    destruct (decide ("not" = "not")) as [_|?]; [|done]. cbn [fst].
    destruct (IH suf (S (S pos'))) as [r ->]. by exists r.
  - intros prev pos tok rest Hhave Hcase IH suf pos'.
    rewrite <- app_comm_cons. cbn [walk].
    rewrite decide_False by (intros [Hbe _]; by apply be_not_have in Hbe).
    rewrite decide_True by done.
    destruct (decide (tok = "not")) as [->|Hne].
    + destruct Hcase as [?| ->]; [done|]. cbn [app walk fst].
      destruct suf as [|next_tok suf]; cbn [fst]; by eexists.
    + destruct (IH suf (S pos')) as [r Hr].
      exists r. destruct (rest ++ suf); cbn [fst] in *; by rewrite Hr.
  - intros prev pos tok rest Hno Hhave IH suf pos'.
    rewrite <- app_comm_cons. cbn [walk].
    rewrite decide_False by done. rewrite decide_False by done. cbn [fst].
    destruct (IH suf (S pos')) as [r ->]. by exists r.
Qed.

(** X7: what follows never changes what was displayed: the display
    tokens of a sequence are a prefix of the display tokens of every
    extension of it. *)
Theorem display_of_prefix_is_prefix (tokens more : list string) :
  exists d g rest g',
    apply_display_grammar tokens = Some (d, g) ∧
    apply_display_grammar (tokens ++ more) = Some (d ++ rest, g').
Proof.
  destruct (walk_prefix "" 0 tokens more 0) as [rest Hrest].
  exists (fst (walk "" 0 tokens)), (snd (walk "" 0 tokens)), rest,
         (snd (walk "" 0 (tokens ++ more))).
  rewrite !apply_display_grammar_walk, <- Hrest, <- !surjective_pairing. done.
Qed.

Lemma last_cons_default {A} (x y : A) l :
  default y (last (x :: l)) = default x (last l).
Proof.
  destruct l as [|z l]; [done|]. rewrite last_cons_cons.
  destruct (last (z :: l)) eqn:E; [done|]. by apply last_None in E.
Qed.

Lemma last_cons_ne {A} (x n : A) l :
  last (x :: l) ≠ Some n -> last l ≠ Some n.
Proof. destruct l as [|z l]; [done|]. by rewrite last_cons_cons. Qed.

(** The pass over [pre ++ suf] is the pass over [pre] followed by the
    pass over [suf] from where the first one stopped, unless the first
    one ends on a "not". *)
Lemma walk_app prev pos pre suf :
  last (fst (walk prev pos pre)) ≠ Some "not" ->
  walk prev pos (pre ++ suf)
  = (fst (walk prev pos pre)
       ++ fst (walk (default prev (last (fst (walk prev pos pre))))
                    (pos + length pre) suf),
     snd (walk prev pos pre)
       ++ snd (walk (default prev (last (fst (walk prev pos pre))))
                    (pos + length pre) suf)).
Proof.
  revert prev pos pre suf.
  apply (walk_cases (fun prev pos pre r => forall suf,
           last (fst r) ≠ Some "not" ->
           walk prev pos (pre ++ suf)
           = (fst r ++ fst (walk (default prev (last (fst r)))
                                 (pos + length pre) suf),
              snd r ++ snd (walk (default prev (last (fst r)))
                                 (pos + length pre) suf)))); cbn [fst snd].
  - intros prev pos suf _. simpl. rewrite Nat.add_0_r.
    by rewrite <- surjective_pairing.
  - intros prev pos tok rest ing Hbe Hing IH suf Hlast.
    rewrite <- app_comm_cons. cbn [walk].
    rewrite decide_True by eauto. rewrite Hing. cbn [default id].
    rewrite (IH suf) by (by apply last_cons_ne in Hlast). cbn [fst snd length].
    by rewrite last_cons_default, Nat.add_succ_r.
  - intros prev pos tok next_tok rest Hhave -> IH suf Hlast.
    rewrite <- !app_comm_cons. cbn [walk].
    rewrite decide_False by (intros [Hbe _]; by apply be_not_have in Hbe).
    rewrite decide_True by done.
    destruct (decide ("not" = "not")) as [_|?]; [|done].
    rewrite (IH suf) by (by do 2 apply last_cons_ne in Hlast).
    cbn [fst snd length].
    by rewrite !last_cons_default, !Nat.add_succ_r.
  - intros prev pos tok rest Hhave Hcase IH suf Hlast.
    rewrite <- app_comm_cons. cbn [walk].
    rewrite decide_False by (intros [Hbe _]; by apply be_not_have in Hbe).
    rewrite decide_True by done.
    destruct (decide (tok = "not")) as [->|Hne].
    { destruct Hcase as [?| ->]; [done|]. by vm_compute in Hlast. }
    assert (Hgoal :
      (past_of tok :: fst (walk (past_of tok) (S pos) (rest ++ suf)),
       pos :: snd (walk (past_of tok) (S pos) (rest ++ suf)))
      = ((past_of tok :: fst (walk (past_of tok) (S pos) rest))
           ++ fst (walk (default prev
                           (last (past_of tok
                                    :: fst (walk (past_of tok) (S pos) rest))))
                        (pos + length (tok :: rest)) suf),
         (pos :: snd (walk (past_of tok) (S pos) rest))
           ++ snd (walk (default prev
                           (last (past_of tok
                                    :: fst (walk (past_of tok) (S pos) rest))))
                        (pos + length (tok :: rest)) suf))).
    { rewrite (IH suf) by (by apply last_cons_ne in Hlast).
      cbn [fst snd length].
      by rewrite last_cons_default, Nat.add_succ_r. }
    by destruct (rest ++ suf).
  - intros prev pos tok rest Hno Hhave IH suf Hlast.
    rewrite <- app_comm_cons. cbn [walk].
    rewrite decide_False by done. rewrite decide_False by done.
    rewrite (IH suf) by (by apply last_cons_ne in Hlast).
    cbn [fst snd length].
    by rewrite last_cons_default, Nat.add_succ_r.
Qed.

(** Only the membership of the previous token in the two sets matters. *)
Lemma walk_prev_irrelevant prev prev' pos toks :
  prev ∉ AUX_VERBS -> prev' ∉ AUX_VERBS ->
  walk prev pos toks = walk prev' pos toks.
Proof.
  intros H H'. destruct toks as [|tok rest]; [done|]. cbn [walk].
  rewrite !(decide_False (P := _ ∧ _)) by (intros [?%be_is_aux _]; done).
  by rewrite !(decide_False (P := _ ∈ HAVE_FORMS))
    by (intros ?%have_is_aux; done).
Qed.

(** Starting the count of positions at [n + pos] shifts the recorded
    positions by [n]. *)
Lemma walk_shift n prev pos toks :
  walk prev (n + pos) toks
  = (fst (walk prev pos toks), (fun j => n + j) <$> snd (walk prev pos toks)).
Proof.
  revert prev pos toks.
  apply (walk_cases (fun prev pos toks r =>
           walk prev (n + pos) toks = (fst r, (fun j => n + j) <$> snd r)));
    cbn [fst snd].
  - done.
  - intros prev pos tok rest ing Hbe Hing IH. cbn [walk].
    rewrite decide_True by eauto. rewrite Hing. cbn [default id].
    rewrite <- Nat.add_succ_r, IH. done.
  - intros prev pos tok next_tok rest Hhave -> IH. cbn [walk].
    rewrite decide_False by (intros [Hbe _]; by apply be_not_have in Hbe).
    rewrite decide_True by done.
    destruct (decide ("not" = "not")) as [_|?]; [|done].
    rewrite <- !Nat.add_succ_r, IH. done.
  - intros prev pos tok rest Hhave Hcase IH. cbn [walk].
    rewrite decide_False by (intros [Hbe _]; by apply be_not_have in Hbe).
    rewrite decide_True by done.
    rewrite <- !Nat.add_succ_r, IH. cbn [fst snd].
    destruct (decide (tok = "not")) as [->|Hne]; [|by destruct rest].
    by destruct Hcase as [?| ->].
  - intros prev pos tok rest Hno Hhave IH. cbn [walk].
    rewrite decide_False by done. rewrite decide_False by done.
    rewrite <- Nat.add_succ_r, IH. done.
Qed.

(** X8: two sequences can be processed apart and put together: when
    the display of the first one is empty or ends on a token that is
    neither an auxiliary verb nor "not", the result for the
    concatenation is the two displays side by side, with the recorded
    positions of the second one shifted by the length of the first. *)
Theorem concatenation_is_processed_piecewise
    (tokens1 tokens2 d1 d2 : list string) (g1 g2 : list nat)
    (Hrun1 : apply_display_grammar tokens1 = Some (d1, g1))
    (Hrun2 : apply_display_grammar tokens2 = Some (d2, g2))
    (Hend : forall x, last d1 = Some x -> (x ∉ AUX_VERBS) ∧ x <> "not") :
  apply_display_grammar (tokens1 ++ tokens2)
  = Some (d1 ++ d2, g1 ++ ((fun j => length tokens1 + j) <$> g2)).
Proof.
  apply apply_display_grammar_inv in Hrun1 as [-> ->].
  apply apply_display_grammar_inv in Hrun2 as [-> ->].
  rewrite apply_display_grammar_walk. f_equal.
  rewrite walk_app by (intros Hl; by apply Hend in Hl as [_ ?]).
  rewrite (walk_prev_irrelevant (default "" (last _)) "" _ tokens2).
  - simpl. rewrite <- (Nat.add_0_r (length tokens1)) at 1 2.
    by rewrite walk_shift.
  - destruct (last _) as [x|]; [by destruct (Hend x eq_refl)|].
    apply empty_not_aux.
  - apply empty_not_aux.
Qed.

Lemma concatenation_is_processed_piecewise_witness :
  apply_display_grammar (["he"; "is"; "go"] ++ ["she"; "has"; "not"; "come"])
  = Some (["he"; "is"; "going"] ++ ["she"; "has"; "not"; "come"],
          [2] ++ ((fun j => length ["he"; "is"; "go"] + j) <$> [3])).
Proof.
  apply (concatenation_is_processed_piecewise
           ["he"; "is"; "go"] ["she"; "has"; "not"; "come"]).
  - reflexivity.
  - reflexivity.
  - intros x [= <-]. split; [apply (bool_decide_unpack _); by vm_compute|done].
Defined.

End GrammarCompose.

(** ** The tokenizer and the lemmatizer driver *)

Module TokenizerExtras.
Import Chars Tokenizer TokenizerFacts Tables Detector.

Lemma lower_nonword c : is_word c = false -> is_word (char_lower c) = false.
Proof. destruct c as [[] [] [] [] [] [] [] []]; by vm_compute. Qed.

Lemma lower_az c : is_az c = true -> char_lower c = c.
Proof. destruct c as [[] [] [] [] [] [] [] []]; by vm_compute. Qed.

Lemma lower_append a b : lower (a +:+ b) = lower a +:+ lower b.
Proof.
  induction a as [|c a IH]; [done|]. rewrite append_cons. simpl.
  by rewrite IH.
Qed.

Lemma lower_az_word w : string_forallb is_az w = true -> lower w = w.
Proof.
  induction w as [|c w IH]; simpl; [done|].
  intros [Hc Hw]%andb_true_iff. by rewrite (lower_az _ Hc), IH.
Qed.

Lemma runs_from_sep p cur a c b :
  p c = false ->
  runs_from p cur (a +:+ String c b) = runs_from p cur a ++ runs_from p "" b.
Proof.
  intros Hc. revert cur. induction a as [|x a IH]; intros cur.
  - simpl. by rewrite Hc.
  - rewrite append_cons. simpl. destruct (p x); [apply IH|].
    by rewrite IH, app_assoc.
Qed.

Lemma tokenize_filter text :
  tokenize text
  = filter (fun w => string_forallb is_az w) (runs is_word (lower text)).
Proof. apply (findall_from_runs None). Qed.

Lemma tokenize_sep a c b :
  is_word c = false -> tokenize (a +:+ String c b) = tokenize a ++ tokenize b.
Proof.
  intros Hc. rewrite !tokenize_filter, lower_append. simpl. unfold runs.
  by rewrite runs_from_sep, filter_app by (by apply lower_nonword).
Qed.

Lemma tokenize_word w :
  w ≠ "" -> string_forallb is_az w = true -> tokenize w = [w].
Proof.
  intros Hne Haz. rewrite tokenize_filter, lower_az_word by done.
  unfold runs. rewrite runs_from_span.
  pose proof (span_app_stop is_word w "" (string_forallb_impl _ _ _ is_az_word Haz)
                eq_refl) as Hspan.
  rewrite append_nil_r in Hspan. rewrite Hspan. cbn [fst snd].
  rewrite append_empty. destruct w; [done|]. simpl.
  rewrite filter_cons_True; [done|]. by apply Is_true_true.
Qed.

(** X9: a character that is not a word character (a blank, a comma)
    separates: the tokens of two texts joined by it are the tokens of
    the first followed by the tokens of the second. *)
Theorem tokens_of_separated_texts (a b : string) (c : ascii)
    (Hsep : is_word c = false) :
  tokenize (a +:+ String c b) = tokenize a ++ tokenize b.
Proof. by apply tokenize_sep. Qed.

Lemma tokens_of_separated_texts_witness :
  tokenize ("Bitcoin is" +:+ String "," " rise!")
  = tokenize "Bitcoin is" ++ tokenize " rise!".
Proof. apply (tokens_of_separated_texts "Bitcoin is" " rise!" ","). reflexivity. Defined.

(** X10: joining words of letters a-z with blanks and tokenizing gives
    the words back. *)
Theorem tokenize_joined_words (ws : list string)
    (Hwords : Forall (fun w => w ≠ "" ∧ string_forallb is_az w = true) ws) :
  tokenize (String.concat " " ws) = ws.
Proof.
  induction Hwords as [|w ws [Hne Haz] Hws IH]; [done|].
  destruct ws as [|w' ws].
  - simpl. by apply tokenize_word.
  - change (String.concat " " (w :: w' :: ws))
      with (w +:+ String " " (String.concat " " (w' :: ws))).
    rewrite tokenize_sep by done. by rewrite IH, tokenize_word.
Qed.

Lemma tokenize_joined_words_witness :
  tokenize (String.concat " " ["she"; "has"; "go"]) = ["she"; "has"; "go"].
Proof.
  apply (tokenize_joined_words ["she"; "has"; "go"]).
  repeat (apply Forall_cons; split; [split; [discriminate|reflexivity]|]).
  apply Forall_nil_2.
Defined.

(** X11: the lemma list is aligned with the token list, and a token
    that is an auxiliary verb is its own lemma, whatever the tagger and
    the lemmatizer say. *)
Theorem auxiliaries_are_their_own_lemma
    (tag_of : list string -> nat -> string)
    (lemmatize : string -> string -> string)
    (text : string) (k : nat) (w : string)
    (Htoken : tokenize text !! k = Some w) (Haux : w ∈ AUX_VERBS) :
  length (preprocess_user_input tag_of lemmatize text) = length (tokenize text) ∧
  preprocess_user_input tag_of lemmatize text !! k = Some w.
Proof.
  unfold preprocess_user_input, pos_tag. fold (tokenize text). split.
  - by rewrite length_fmap, length_imap.
  - rewrite list_lookup_fmap, list_lookup_imap, Htoken. simpl.
    by rewrite decide_True.
Qed.

Lemma auxiliaries_are_their_own_lemma_witness :
  preprocess_user_input (fun _ _ => "VBZ") (fun _ _ => "be") "He was late" !! 1
  = Some "was".
Proof.
  apply (auxiliaries_are_their_own_lemma
           (fun _ _ => "VBZ") (fun _ _ => "be") "He was late" 1 "was").
  - reflexivity.
  - by vm_compute.
Defined.

End TokenizerExtras.

(** ** Suggestions, highlighting and the error details of [app.py] *)

Module AppExtras.
Import Chars Tokenizer TokenizerFacts Tables Grammar GrammarFacts.
Import Ranker RankerFacts Details.

Lemma suggestion_map_dom errors :
  dom (suggestion_map errors) = spelling_words errors.
Proof.
  unfold suggestion_map, spelling_words.
  induction errors as [|err errors IH] using rev_ind;
    [simpl; by rewrite dom_empty_L|].
  rewrite foldl_app, fmap_app, list_to_set_app_L. simpl.
  rewrite dom_insert_L, IH. by rewrite (right_id_L ∅ (∪)), (comm_L (∪)).
Qed.

Lemma suggestion_map_last l1 err l2 :
  Forall (fun e => err_word e ≠ err_word err) l2 ->
  suggestion_map (l1 ++ err :: l2) !! err_word err = Some (ranked err).
Proof.
  unfold suggestion_map.
  induction l2 as [|e l2 IH] using rev_ind; intros Hl2.
  - rewrite foldl_app. simpl. apply lookup_insert_eq.
  - apply Forall_app in Hl2 as [Hl2 [He _]%Forall_cons].
    rewrite app_comm_cons, app_assoc, foldl_app. simpl.
    rewrite lookup_insert_ne by done. by apply IH.
Qed.

(** X12: the suggestion map has an entry for exactly the words that
    [detect_errors] reported. *)
Theorem suggestion_map_keys (errors : list error) :
  dom (suggestion_map errors) = spelling_words errors.
Proof. apply suggestion_map_dom. Qed.

(** X13: when a word is reported more than once, the entry of the last
    report stands: it is the ranked suggestion list of that report. *)
Theorem suggestion_map_last_report_wins (l1 l2 : list error) (err : error)
    (Hlast : Forall (fun e => err_word e ≠ err_word err) l2) :
  suggestion_map (l1 ++ err :: l2) !! err_word err = Some (ranked err).
Proof. by apply suggestion_map_last. Qed.

Lemma suggestion_map_last_report_wins_witness :
  suggestion_map
    ([Error "teh" "spelling" (Some ["ten"])]
       ++ Error "teh" "spelling" (Some ["tea"; "the"])
       :: [Error "mat" "spelling" None])
    !! "teh"
  = Some (ranked (Error "teh" "spelling" (Some ["tea"; "the"]))).
Proof.
  apply (suggestion_map_last_report_wins
           [Error "teh" "spelling" (Some ["ten"])]
           [Error "mat" "spelling" None]
           (Error "teh" "spelling" (Some ["tea"; "the"]))).
  apply Forall_cons. split; [discriminate|apply Forall_nil_2].
Defined.

(** X14: the first suggestion shown is a closest one: no suggestion of
    the error is nearer to the misspelled word than the head of the
    ranked list. *)
Theorem first_suggestion_is_closest (err : error) (best s : string)
    (Hhead : head (ranked err) = Some best)
    (Hs : s ∈ default [] (err_suggestions err)) :
  edit_distance (err_word err) best <= edit_distance (err_word err) s.
Proof.
  apply head_Some in Hhead as [rest Heq].
  pose proof (sorted_sorted (fun w => edit_distance (err_word err) w)
                (default [] (err_suggestions err))) as Hsorted.
  fold (ranked err) in Hsorted. rewrite Heq in Hsorted.
  apply StronglySorted_inv in Hsorted as [_ Hall].
  assert (Hin : s ∈ ranked err) by (unfold ranked; by rewrite sorted_Permutation).
  rewrite Heq in Hin. apply elem_of_cons in Hin as [->|Hin]; [done|].
  rewrite Forall_forall in Hall. by apply Hall.
Qed.

Lemma first_suggestion_is_closest_witness :
  edit_distance "teh" "ten" <= edit_distance "teh" "the".
Proof.
  apply (first_suggestion_is_closest
           (Error "teh" "spelling" (Some ["the"; "ten"; "tea"])) "ten" "the").
  - reflexivity.
  - apply list_elem_of_here.
Defined.

(** X15: highlighting keeps the text: the words of the highlighted
    list are the display tokens, in order, none added or dropped. *)
Theorem highlighting_keeps_the_words
    (errors : list error) (display_version : list string)
    (grammar_indices : list nat) :
  snd <$> highlighted_text errors display_version grammar_indices
  = display_version.
Proof.
  apply list_eq. intros k. unfold highlighted_text.
  rewrite list_lookup_fmap, list_lookup_imap.
  destruct (display_version !! k) as [word|]; [|done]. simpl.
  by repeat case_decide.
Qed.

(** X16: a word shown without highlight is the input lemma of its
    position: whatever the display grammar changed is shown in green or
    red. *)
Theorem plain_words_are_input_lemmas
    (errors : list error) (tokens d : list string) (g : list nat)
    (k : nat) (w : string)
    (Hrun : apply_display_grammar tokens = Some (d, g))
    (Hplain : highlighted_text errors d g !! k = Some (Plain, w)) :
  tokens !! k = Some w.
Proof.
  rewrite apply_display_grammar_walk in Hrun. injection Hrun as Hrun.
  unfold highlighted_text in Hplain. rewrite list_lookup_imap in Hplain.
  destruct (d !! k) as [word|] eqn:Hd; [|done]. simpl in Hplain.
  repeat case_decide; try done. injection Hplain as ->.
  rewrite <- Hd. symmetry.
  replace d with (fst (walk "" 0 tokens)) by (by rewrite Hrun).
  apply walk_frame. by rewrite Hrun.
Qed.

Lemma plain_words_are_input_lemmas_witness :
  ["she"; "has"; "go"] !! 0 = Some "she".
Proof.
  apply (plain_words_are_input_lemmas
           [Error "teh" "spelling" None] ["she"; "has"; "go"]
           ["she"; "has"; "gone"] [2] 0 "she").
  - reflexivity.
  - by vm_compute.
Defined.

Lemma not_spelling_word_no_entry errors lw :
  lw ∉ spelling_words errors -> suggestion_map errors !! lw = None.
Proof. rewrite <- suggestion_map_dom. apply not_elem_of_dom. Qed.

Lemma not_spelling_word_type errors lw :
  lw ∉ spelling_words errors -> error_type errors lw = "grammar".
Proof.
  intros Hlw. unfold error_type.
  destruct (filter _ errors) as [|err rest] eqn:Hf; [done|]. exfalso.
  assert (Hin : err ∈ filter (fun err => err_word err = lw) errors)
    by (rewrite Hf; apply list_elem_of_here).
  apply list_elem_of_filter in Hin as [<- Hin]. apply Hlw.
  unfold spelling_words. rewrite elem_of_list_to_set.
  by apply list_elem_of_fmap_2.
Qed.

(** X17: in the details every list of suggestions is shown with
    non-decreasing edit distances. *)
Theorem details_list_distances_in_order
    (errors : list error) (display_version : list string)
    (grammar_indices : list nat) :
  Forall (fun det => StronglySorted (fun a b => snd a <= snd b) (det_lines det))
         (error_details errors display_version grammar_indices).
Proof.
  apply Forall_forall. intros det Hdet. unfold error_details in Hdet.
  destruct errors as [|e0 es]; [by apply elem_of_nil in Hdet|].
  set (errors := e0 :: es) in *. clearbody errors.
  apply list_elem_of_omap in Hdet as (o & Ho & Hid).
  unfold id in Hid. subst o.
  apply elem_of_lookup_imap in Ho as (k & word & Heq & _).
  cbv zeta in Heq. case_decide; [|done]. injection Heq as ->. simpl.
  destruct (suggestion_map errors !! lower word) as [l|] eqn:Hl;
    [|apply SSorted_nil].
  apply suggestion_map_lookup in Hl as (err & _ & Hw & ->). simpl.
  apply (StronglySorted_fmap _
           (key_le (fun w => edit_distance (err_word err) w))).
  - intros x y Hxy. simpl. by rewrite <- Hw.
  - apply sorted_sorted.
Qed.

(** X18: when at least one spelling error was reported, a
    grammar-corrected token that is not a spelling error is listed in
    the details as a "grammar" error without any suggestion. *)
Theorem grammar_corrections_have_no_suggestions
    (errors : list error) (display_version : list string)
    (grammar_indices : list nat) (k : nat) (word : string)
    (Herrors : errors ≠ [])
    (Hword : display_version !! k = Some word)
    (Hcorrected : k ∈ grammar_indices)
    (Hspelled : lower word ∉ spelling_words errors) :
  Detail word "grammar" []
  ∈ error_details errors display_version grammar_indices.
Proof.
  unfold error_details. destruct errors as [|e0 es]; [done|].
  set (errors := e0 :: es) in *. clearbody errors.
  apply list_elem_of_omap. eexists. split.
  - apply (elem_of_lookup_imap_2 _ _ _ _ Hword).
  - unfold id. cbv beta. rewrite decide_True by (by right).
    by rewrite not_spelling_word_no_entry, not_spelling_word_type.
Qed.

Lemma grammar_corrections_have_no_suggestions_witness :
  Detail "gone" "grammar" []
  ∈ error_details [Error "teh" "spelling" (Some ["the"])]
      ["she"; "has"; "gone"; "teh"] [2].
Proof.
  apply (grammar_corrections_have_no_suggestions
           [Error "teh" "spelling" (Some ["the"])]
           ["she"; "has"; "gone"; "teh"] [2] 2 "gone").
  - discriminate.
  - reflexivity.
  - apply list_elem_of_here.
  - apply (bool_decide_unpack _). by vm_compute.
Defined.

Lemma lstrip_empty s :
  lstrip s = "" -> string_forallb is_space s = true.
Proof.
  induction s as [|c s IH]; simpl; [done|].
  destruct (is_space c); [done|discriminate].
Qed.

Lemma rstrip_empty s :
  rstrip s = "" -> string_forallb is_space s = true.
Proof.
  induction s as [|c s IH]; simpl; [done|].
  destruct (rstrip s); [|discriminate].
  destruct (is_space c); [auto|discriminate].
Qed.

Lemma lstrip_cases s :
  lstrip s = "" ∨ exists c r, lstrip s = String c r ∧ is_space c = false.
Proof.
  induction s as [|c s IH]; simpl; [by left|].
  destruct (is_space c) eqn:E; [done|]. right. by exists c, s.
Qed.

Lemma space_not_alpha c : is_space c = true -> negb (is_alpha c) = true.
Proof. destruct c as [[] [] [] [] [] [] [] []]; by vm_compute. Qed.

(** X19: the input check (line 78) only turns away texts without
    tokens: a text that strips to nothing has no token. *)
Theorem blank_input_has_no_token (user_input : string)
    (Hblank : is_blank user_input = true) :
  tokenize user_input = [].
Proof.
  unfold is_blank, strip in Hblank. apply bool_decide_eq_true in Hblank.
  assert (Hspace : string_forallb is_space user_input = true).
  { apply lstrip_empty.
    destruct (lstrip_cases user_input) as [?|(c & r & Heq & Hc)]; [done|].
    rewrite Heq in Hblank. apply rstrip_empty in Hblank. simpl in Hblank.
    by rewrite Hc in Hblank. }
  apply DetectorClaims.findall_from_no_letters, DetectorClaims.lower_no_letters.
  by apply (string_forallb_impl _ _ _ space_not_alpha).
Qed.

Lemma blank_input_has_no_token_witness : tokenize "   " = [].
Proof. apply (blank_input_has_no_token "   "). reflexivity. Defined.

(** X20: a display token whose lower-case form is a function word is
    never shown as a spelling error, whatever [detect_errors] reported. *)
Theorem function_words_are_never_red
    (errors : list error) (display_version : list string)
    (grammar_indices : list nat) (word : string)
    (Hfunction : lower word ∈ FUNCTION_WORDS) :
  (Red, word) ∉ highlighted_text errors display_version grammar_indices.
Proof. by apply DetectorClaims.function_word_never_red. Qed.

Lemma function_words_are_never_red_witness :
  (Red, "the") ∉ highlighted_text [Error "the" "spelling" None] ["the"; "cat"] [].
Proof.
  apply (function_words_are_never_red
           [Error "the" "spelling" None] ["the"; "cat"] [] "the").
  by vm_compute.
Defined.

End AppExtras.

(** ** The bigram and unigram counts of [build_biagram.py] *)

Module BigramExtras.
Import Bigram.

Section Counting.
Context `{Countable K}.

Lemma occurrences_snoc (x y : K) (l : list K) :
  occurrences x (l ++ [y])
  = occurrences x l + (if decide (y = x) then 1 else 0).
Proof.
  unfold occurrences. rewrite filter_app, length_app. f_equal.
  rewrite filter_cons, filter_nil. by case_decide.
Qed.

Lemma Counter_lookup (l : list K) (x : K) :
  Counter l !! x
  = if decide (occurrences x l = 0) then None else Some (occurrences x l).
Proof.
  unfold Counter. induction l as [|y l IH] using rev_ind.
  - simpl. apply lookup_empty.
  - rewrite foldl_app, occurrences_snoc. simpl.
    destruct (decide (y = x)) as [->|Hne].
    + rewrite lookup_insert_eq, IH.
      rewrite (decide_False (P := occurrences x l + 1 = 0)) by lia.
      case_decide; simpl; f_equal; lia.
    + rewrite lookup_insert_ne, IH by done. by rewrite Nat.add_0_r.
Qed.

End Counting.

Lemma bigrams_zip tokens : bigrams tokens = Some (zip tokens (drop 1 tokens)).
Proof.
  unfold bigrams. apply mapM_Some, Forall2_same_length_lookup_2.
  - rewrite length_seq, length_zip_with, length_drop. lia.
  - intros k j [a b] [-> Hk]%lookup_seq (x & y & [= <- <-] & Ha & Hb)%lookup_zip_with_Some.
    rewrite lookup_drop in Hb. simpl. rewrite Ha. simpl.
    by rewrite (Nat.add_comm k 1), Hb.
Qed.

Lemma occurrences_zip_l {A B} `{EqDecision A, EqDecision B}
    (a : A) (b : B) (l : list A) : forall k : list B,
  occurrences (a, b) (zip l k) <= occurrences a l.
Proof.
  unfold occurrences. induction l as [|x l IH]; intros [|y k].
  - simpl. lia.
  - simpl. lia.
  - simpl. lia.
  - change (zip (x :: l) (y :: k)) with ((x, y) :: zip l k).
    rewrite !filter_cons. specialize (IH k).
    repeat case_decide; simplify_eq; simpl; lia.
Qed.

Lemma occurrences_zip_r {A B} `{EqDecision A, EqDecision B}
    (a : A) (b : B) (l : list A) : forall k : list B,
  occurrences (a, b) (zip l k) <= occurrences b k.
Proof.
  unfold occurrences. induction l as [|x l IH]; intros [|y k].
  - simpl. lia.
  - simpl. lia.
  - simpl. lia.
  - change (zip (x :: l) (y :: k)) with ((x, y) :: zip l k).
    rewrite !filter_cons. specialize (IH k).
    repeat case_decide; simplify_eq; simpl; lia.
Qed.

Lemma occurrences_drop1 {A} `{EqDecision A} (b : A) (l : list A) :
  occurrences b (drop 1 l) <= occurrences b l.
Proof.
  unfold occurrences. destruct l as [|x l]; [done|]. simpl. rewrite drop_0.
  rewrite filter_cons. case_decide; simpl; lia.
Qed.

(** X21: building the bigrams never fails on an index; the bigrams are
    the pairs of neighbours, in order, one less than the tokens (none
    for an empty or one-token file). *)
Theorem bigrams_are_neighbour_pairs (tokens : list string) :
  exists l,
    bigrams tokens = Some l ∧
    l = zip tokens (drop 1 tokens) ∧
    length l = length tokens - 1.
Proof.
  exists (zip tokens (drop 1 tokens)). split; [apply bigrams_zip|].
  split; [done|]. rewrite length_zip_with, length_drop. lia.
Qed.

(** X22: the counters count: a key is present exactly when it occurs,
    and its count is its number of occurrences. *)
Theorem counts_are_occurrences (tokens : list string) :
  (forall w, unigram_counts tokens !! w
             = if decide (occurrences w tokens = 0) then None
               else Some (occurrences w tokens)) ∧
  exists counts l,
    bigram_counts tokens = Some counts ∧ bigrams tokens = Some l ∧
    forall ab, counts !! ab
               = if decide (occurrences ab l = 0) then None
                 else Some (occurrences ab l).
Proof.
  split; [intros w; apply Counter_lookup|].
  unfold bigram_counts. rewrite bigrams_zip. simpl.
  eexists _, _. split; [done|]. split; [done|].
  intros ab. apply Counter_lookup.
Qed.

(** X23: a bigram is never counted more often than either of its
    words, so the conditional frequency of a bigram given its first
    word is at most one. *)
Theorem bigram_count_at_most_unigram_counts
    (tokens : list string) (counts : gmap (string * string) nat)
    (a b : string) (n : nat)
    (Hcounts : bigram_counts tokens = Some counts)
    (Hn : counts !! (a, b) = Some n) :
  exists na nb,
    unigram_counts tokens !! a = Some na ∧
    unigram_counts tokens !! b = Some nb ∧
    0 < n ∧ n <= na ∧ n <= nb.
Proof.
  unfold bigram_counts, unigram_counts in *. rewrite bigrams_zip in Hcounts.
  injection Hcounts as <-. rewrite Counter_lookup in Hn.
  case_decide as Hz; [done|]. injection Hn as <-.
  pose proof (occurrences_zip_l a b tokens (drop 1 tokens)) as Hl.
  pose proof (occurrences_zip_r a b tokens (drop 1 tokens)) as Hr.
  pose proof (occurrences_drop1 b tokens) as Hd.
  exists (occurrences a tokens), (occurrences b tokens).
  rewrite !Counter_lookup. rewrite !decide_False by lia.
  repeat split; lia.
Qed.

Lemma bigram_count_at_most_unigram_counts_witness :
  exists na nb,
    unigram_counts ["to"; "be"; "or"; "not"; "to"; "be"] !! "to" = Some na ∧
    unigram_counts ["to"; "be"; "or"; "not"; "to"; "be"] !! "be" = Some nb ∧
    0 < 2 ∧ 2 <= na ∧ 2 <= nb.
Proof.
  apply (bigram_count_at_most_unigram_counts
           ["to"; "be"; "or"; "not"; "to"; "be"]
           (Counter [("to", "be"); ("be", "or"); ("or", "not");
                     ("not", "to"); ("to", "be")])
           "to" "be" 2).
  - reflexivity.
  - by vm_compute.
Defined.

End BigramExtras.
